(** * RSS news aggregator: crawl orchestration, index and query loop

    A shallow embedding of [news-aggregator.cc].  The program has three
    kinds of threads (the main thread, one thread per feed, one thread per
    article) that share three kinds of semaphores, an index and the output
    streams.  Each thread is modelled by a program counter over the source
    lines it still has to run, and the whole program by a step function
    that advances one chosen thread by one atomic action. *)

From stdpp Require Import base numbers option list strings gmap pretty.

Local Open Scope string_scope.
Local Open Scope Z_scope.

(** ** Data *)

(** [article.h]: the two fields the program reads. *)
Record Article := { url : string; title : string }.

#[global] Instance Article_eq_dec : EqDecision Article.
Proof. solve_decision. Defined.

(** The double quote character, written by its code. *)
Definition dq : string := String (Ascii.ascii_of_nat 34%nat) EmptyString.

(** ** The index *)

Module RSSIndex.

(** Modelled from the spec: the class [RSSIndex] ([rss-index.h] and its
    implementation are not among the sources).  The spec, section 3:
    a mapping from token to an ordered list of (Article, occurrence
    count) pairs, with at most one entry per Article URL for a fixed
    token; repeated submissions for the same (token, URL) accumulate.
    Counts are [int] in the caller ([pair<Article, int>]). *)
Abbreviation t := (gmap string (list (Article * Z))).

Definition empty : t := ∅.

(** Increment the count of the sub-entry of [a], identified by its URL;
    create the sub-entry, at the end, when there is none. *)
Fixpoint bump (a : Article) (es : list (Article * Z)) : list (Article * Z) :=
  match es with
  | [] => [(a, 1)]
  | (b, n) :: es' =>
      if decide (url b = url a) then (b, n + 1) :: es'
      else (b, n) :: bump a es'
  end.

Definition entries (idx : t) (token : string) : list (Article * Z) :=
  default [] (idx !! token).

Definition add_token (a : Article) (idx : t) (token : string) : t :=
  <[token := bump a (entries idx token)]> idx.

(** Modelled from the spec: [add(article, tokens)], section 4.3: for
    each token of the sequence, increment the occurrence count for
    (token, article), creating the token entry and the article sub-entry
    as needed. *)
Definition add (a : Article) (tokens : list string) (idx : t) : t :=
  foldl (add_token a) idx tokens.

(** Insertion in a list ordered by descending count; an entry goes
    before the first entry whose count is not larger than its own. *)
Fixpoint insert_desc (e : Article * Z) (l : list (Article * Z)) :
    list (Article * Z) :=
  match l with
  | [] => [e]
  | x :: l' =>
      if bool_decide (e.2 < x.2) then x :: insert_desc e l'
      else e :: x :: l'
  end.

Definition sort_desc (l : list (Article * Z)) : list (Article * Z) :=
  foldr insert_desc [] l.

(** Modelled from the spec: [query(term)], section 4.3 (the method the
    caller names [getMatchingArticles]): every article that contains
    the term, with its count, by descending count; of the two
    tie-breaks the spec allows, insertion order is the one taken. *)
Definition getMatchingArticles (idx : t) (term : string) :
    list (Article * Z) :=
  sort_desc (entries idx term).

(** The occurrence count recorded for a token and an article URL. *)
Fixpoint count_in (u : string) (es : list (Article * Z)) : Z :=
  match es with
  | [] => 0
  | (b, n) :: es' => if decide (url b = u) then n else count_in u es'
  end.

Definition count (idx : t) (token u : string) : Z :=
  count_in u (entries idx token).

(** How often a token occurs in a token sequence. *)
Definition occurrences (token : string) (tokens : list string) : Z :=
  Z.of_nat (length (filter (λ x, x = token) tokens)).

End RSSIndex.

(** ** The world outside the program *)

(** The helpers of [string-utils.h] and [news-aggregator-utils.h] and the
    three document classes are not among the sources; the program is
    modelled for any behaviour of theirs.  A [parse] that throws its
    exception is [None]; one that returns gives what the following getter
    ([getFeeds], [getArticles], [getTokens]) yields.  A document is
    identified by the URL it is fetched from. *)
Class Externals := {
  trim : string → string;
  shouldTruncate : string → bool;
  truncate : string → string;
  getURLServer : string → string;
  feedListParse : string → option (list (string * string));
  feedParse : string → option (list Article);
  htmlParse : string → option (list string);
}.

(** ** Output *)

Inductive stream := cout | cerr.

#[global] Instance stream_eq_dec : EqDecision stream.
Proof. solve_decision. Defined.

(** What one output statement writes, and where. *)
Definition Out : Type := stream * string.

Definition endl : string := String (Ascii.ascii_of_nat 10%nat) EmptyString.

(** [setw(n) << setfill(' ')] before [s]: pad on the left up to width [n]. *)
Definition setw (n : nat) (s : string) : string :=
  String.concat "" (replicate (n - String.length s) " ") ++ s.

Local Open Scope nat_scope.

(** ** Semaphores *)

(** Modelled from the spec: the class [semaphore] ([semaphore.h] is not
    among the sources).  The glossary: a counting concurrency limiter;
    acquiring blocks when exhausted, releasing frees a slot.  A semaphore
    is the number of free permits; [wait] is [None] while it would
    block. *)
Abbreviation semaphore := nat (only parsing).

Definition wait (s : semaphore) : option semaphore :=
  match s with
  | O => None
  | S n => Some n
  end.

Definition signal (s : semaphore) : semaphore := S s.

Definition kMaxfeed : nat := 8.
Definition kMaxTperS : nat := 12.
Definition kMaxthread : nat := 64.
Definition kMaxMatchesToShow : nat := 15.

(** ** Threads *)

(** The article thread, [articletoTokens]. *)
Inductive ArticlePC :=
  | AWait                           (* line 70 *)
  | ARun                            (* lines 71-77 *)
  | AFetch                          (* line 79, htmlDoc.parse() *)
  | ACatch                          (* lines 81-84 *)
  | AParsed (tokens : list string)  (* lines 88-91 *)
  | ASignal                         (* line 92 *)
  | AHostSignal                     (* line 85 or line 93 *)
  | ADone.

Record ArticleThread := {
  a_article : Article;   (* the argument article *)
  a_up : string;         (* the key of the semaphore the argument up refers to *)
  a_parent : nat;        (* the feed thread that holds it in articlethreads *)
  a_title : string;      (* the local title *)
  a_url : string;        (* the local url *)
  a_doc : string;        (* the URL held by the local htmlDoc *)
  a_pc : ArticlePC;
}.

(** The feed thread, [feedtoTokens]. *)
Inductive FeedPC :=
  | FBegin                                   (* lines 102-105 *)
  | FCatch                                   (* lines 107-111 *)
  | FParsed (articles : list Article)        (* line 113 *)
  | FLoop (rest : list Article)              (* lines 116-123, or 127-128 when empty *)
  | FHostWait (article : Article) (serverurl : string) (rest : list Article)
                                             (* lines 124-125 *)
  | FDone.

Record FeedThread := {
  f_feed : string * string;   (* the argument feed: URL, title *)
  f_pc : FeedPC;
}.

(** The main thread: [main], [processAllFeeds] and [queryIndex]. *)
Inductive MainPC :=
  | MStart (exe : string) (args : list string)   (* lines 206-212 *)
  | MFeedList (uri : string)                     (* lines 213-215, 134-144 *)
  | MSpawn (rest : list (string * string))       (* lines 146-149, or 150 when empty *)
  | MQuery                                       (* lines 216-220 *)
  | MQueryForever                                (* inside queryIndex, for ever *)
  | MExited (status : Z).

Definition ArticlePC_done (pc : ArticlePC) : bool :=
  match pc with ADone => true | _ => false end.

Definition FeedPC_done (pc : FeedPC) : bool :=
  match pc with FDone => true | _ => false end.

(** ** The state of the whole program *)

Record Config := {
  feedsAllowed : semaphore;
  threadsAllowed : semaphore;
  serverlocks : gmap string semaphore;
  index : RSSIndex.t;
  output : list Out;             (* what was written so far, in order *)
  cin : list string;             (* the lines not yet read from standard input *)
  mainpc : MainPC;
  feedthreads : list FeedThread;
  articlethreads : list ArticleThread;   (* of all the feeds, in order of creation *)
}.

Definition set_feedsAllowed (v : semaphore) (c : Config) : Config :=
  {| feedsAllowed := v; threadsAllowed := threadsAllowed c;
     serverlocks := serverlocks c; index := index c; output := output c;
     cin := cin c; mainpc := mainpc c; feedthreads := feedthreads c;
     articlethreads := articlethreads c |}.

Definition set_threadsAllowed (v : semaphore) (c : Config) : Config :=
  {| feedsAllowed := feedsAllowed c; threadsAllowed := v;
     serverlocks := serverlocks c; index := index c; output := output c;
     cin := cin c; mainpc := mainpc c; feedthreads := feedthreads c;
     articlethreads := articlethreads c |}.

Definition set_serverlocks (v : gmap string semaphore) (c : Config) : Config :=
  {| feedsAllowed := feedsAllowed c; threadsAllowed := threadsAllowed c;
     serverlocks := v; index := index c; output := output c;
     cin := cin c; mainpc := mainpc c; feedthreads := feedthreads c;
     articlethreads := articlethreads c |}.

Definition set_index (v : RSSIndex.t) (c : Config) : Config :=
  {| feedsAllowed := feedsAllowed c; threadsAllowed := threadsAllowed c;
     serverlocks := serverlocks c; index := v; output := output c;
     cin := cin c; mainpc := mainpc c; feedthreads := feedthreads c;
     articlethreads := articlethreads c |}.

(** Writing appends to what was written. *)
Definition write (o : list Out) (c : Config) : Config :=
  {| feedsAllowed := feedsAllowed c; threadsAllowed := threadsAllowed c;
     serverlocks := serverlocks c; index := index c; output := output c ++ o;
     cin := cin c; mainpc := mainpc c; feedthreads := feedthreads c;
     articlethreads := articlethreads c |}.

Definition set_cin (v : list string) (c : Config) : Config :=
  {| feedsAllowed := feedsAllowed c; threadsAllowed := threadsAllowed c;
     serverlocks := serverlocks c; index := index c; output := output c;
     cin := v; mainpc := mainpc c; feedthreads := feedthreads c;
     articlethreads := articlethreads c |}.

Definition set_mainpc (v : MainPC) (c : Config) : Config :=
  {| feedsAllowed := feedsAllowed c; threadsAllowed := threadsAllowed c;
     serverlocks := serverlocks c; index := index c; output := output c;
     cin := cin c; mainpc := v; feedthreads := feedthreads c;
     articlethreads := articlethreads c |}.

Definition set_feedthreads (v : list FeedThread) (c : Config) : Config :=
  {| feedsAllowed := feedsAllowed c; threadsAllowed := threadsAllowed c;
     serverlocks := serverlocks c; index := index c; output := output c;
     cin := cin c; mainpc := mainpc c; feedthreads := v;
     articlethreads := articlethreads c |}.

Definition set_articlethreads (v : list ArticleThread) (c : Config) : Config :=
  {| feedsAllowed := feedsAllowed c; threadsAllowed := threadsAllowed c;
     serverlocks := serverlocks c; index := index c; output := output c;
     cin := cin c; mainpc := mainpc c; feedthreads := feedthreads c;
     articlethreads := v |}.

Definition set_a_pc (pc : ArticlePC) (t : ArticleThread) : ArticleThread :=
  {| a_article := a_article t; a_up := a_up t; a_parent := a_parent t;
     a_title := a_title t; a_url := a_url t; a_doc := a_doc t; a_pc := pc |}.

Definition set_f_pc (pc : FeedPC) (t : FeedThread) : FeedThread :=
  {| f_feed := f_feed t; f_pc := pc |}.

(** ** The query loop, [queryIndex] *)

Section Query.
Context `{Externals}.
Local Open Scope Z_scope.

(** Lines 186-189: the local copy of a string, shortened when overlong. *)
Definition shown (s : string) : string :=
  if shouldTruncate s then truncate s else s.

(** Lines 186-193: the two lines written for the match of rank
    [count]. *)
Definition entry (count : nat) (match_ : Article * Z) : list Out :=
  let title := shown (title match_.1) in
  let url := shown (url match_.1) in
  let times := if decide (match_.2 = 1) then "time" else "times" in
  [ (cout, "  " ++ setw 2 (pretty count) ++ ".) " ++ dq ++ title ++ dq
           ++ " [appears " ++ pretty match_.2 ++ " " ++ times ++ "]." ++ endl);
    (cout, "       " ++ dq ++ url ++ dq ++ endl) ].

(** Lines 183-194: the loop over the matches; [count] is the local
    counter. *)
Fixpoint showMatches (count : nat) (matches : list (Article * Z)) : list Out :=
  match matches with
  | [] => []
  | match_ :: rest =>
      if decide (count = kMaxMatchesToShow) then []
      else
        let count := S count in
        entry count match_ ++ showMatches count rest
  end.

(** Lines 176-177: the summary. *)
Definition summary (n : nat) : Out :=
  (cout, "That term appears in " ++ pretty n ++ " article"
         ++ (if decide (n = 1%nat) then "" else "s") ++ ".  ").

(** Lines 178-181. *)
Definition heading (n : nat) : Out :=
  if decide (kMaxMatchesToShow < n)%nat
  then (cout, "Here are the top " ++ pretty kMaxMatchesToShow ++ " of them:" ++ endl)
  else (cout, "Here they are:" ++ endl).

(** Lines 173-195: what is written for a response and its matches. *)
Definition report (response : string) (matches : list (Article * Z)) : list Out :=
  match matches with
  | [] => [ (cout, "Ah, we didn't find the term " ++ dq ++ response ++ dq
                   ++ ". Try again." ++ endl) ]
  | _ => summary (length matches) :: heading (length matches)
         :: showMatches 0 matches
  end.

Definition prompt : Out :=
  (cout, "Enter a search term [or just hit <enter> to quit]: ").

(** What the loop writes for a line that does not trim to the empty
    string: the prompt, then the report for the trimmed term and its
    matches in the index. *)
Definition answered (idx : RSSIndex.t) (line : string) : list Out :=
  prompt :: report (trim line) (RSSIndex.getMatchingArticles idx (trim line)).

(** Lines 166-196.  The result is what is written and, when the loop
    ends, the lines left unread.  At the end of the input [getline]
    leaves [response] empty; if [trim] made a non-empty string of it the
    loop would answer that string for ever, which is [None] (with the
    output up to the first prompt at the end of the input). *)
Fixpoint queryIndex (idx : RSSIndex.t) (input : list string) :
    list Out * option (list string) :=
  match input with
  | [] =>
      if decide (trim "" = "") then ([prompt], Some []) else ([prompt], None)
  | line :: input' =>
      let response := trim line in
      if decide (response = "") then ([prompt], Some input')
      else
        let matches := RSSIndex.getMatchingArticles idx response in
        let '(o, e) := queryIndex idx input' in
        (prompt :: report response matches ++ o, e)
  end.

End Query.

(** ** One step of one thread *)

(** A step is one atomic action of one thread, and an execution of the
    program is an interleaving of steps.  A step runs from one point
    where the thread can block ([wait], [join]) or where the outcome of
    a [parse] is decided up to the next one.  What lies between the
    [lock()] and the [unlock()] of [rssindexlock] or of [servermaplock]
    is inside one step, so the two mutexes are not part of the state.
    What one step writes is appended to the output as a whole: the two
    lines of [articletoTokens] (76 and 77), each under its own [oslock],
    and the unlocked line 102 of [feedtoTokens] are written without
    another thread's text between them, so the order of the output is
    coarser here than in the program; no statement below depends on that
    order.  The calls into libxml in [main] (lines 213-214 and 216-217) do not touch
    the state modelled. *)

Inductive Tid := TMain | TFeed (i : nat) | TArticle (i : nat).

#[global] Instance Tid_eq_dec : EqDecision Tid.
Proof. solve_decision. Defined.

#[global] Instance ArticlePC_eq_dec : EqDecision ArticlePC.
Proof. solve_decision. Defined.

Section Steps.
Context `{Externals}.

Definition step_article (c : Config) (i : nat) : option Config :=
  t ← articlethreads c !! i;
  let goto pc c := set_articlethreads (<[i := set_a_pc pc t]> (articlethreads c)) c in
  match a_pc t with
  | AWait =>
      n ← wait (threadsAllowed c);
      Some (goto ARun (set_threadsAllowed n c))
  | ARun =>
      let article := a_article t in
      let title := title article in
      let title := if shouldTruncate title then truncate title else title in
      let url0 := url article in
      let url := if shouldTruncate url0 then truncate url0 else url0 in
      let t' := {| a_article := article; a_up := a_up t; a_parent := a_parent t;
                   a_title := title; a_url := url; a_doc := url0;
                   a_pc := AFetch |} in
      Some (set_articlethreads (<[i := t']> (articlethreads c))
              (write [ (cout, "  " ++ setw 2 ("Parsing " ++ dq) ++ title ++ dq ++ endl);
                       (cout, "  " ++ setw 6 ("[at " ++ dq) ++ url ++ dq ++ "]" ++ endl) ]
                 c))
  | AFetch =>
      match htmlParse (a_doc t) with
      | None => Some (goto ACatch c)
      | Some tokens => Some (goto (AParsed tokens) c)
      end
  | ACatch =>
      Some (goto AHostSignal
              (set_threadsAllowed (signal (threadsAllowed c))
                 (write [ (cerr, "Ran into trouble while pulling full html document from "
                                 ++ dq ++ a_doc t ++ dq ++ "." ++ endl);
                          (cerr, "Aborting...." ++ endl) ]
                    c)))
  | AParsed tokens =>
      Some (goto ASignal (set_index (RSSIndex.add (a_article t) tokens (index c)) c))
  | ASignal =>
      Some (goto AHostSignal (set_threadsAllowed (signal (threadsAllowed c)) c))
  | AHostSignal =>
      n ← serverlocks c !! a_up t;
      Some (goto ADone (set_serverlocks (<[a_up t := signal n]> (serverlocks c)) c))
  | ADone => None
  end.

(** The threads of [articlethreads] in the feed thread [i] have all
    returned. *)
Definition joined (i : nat) (ts : list ArticleThread) : bool :=
  forallb (λ t, bool_decide (a_parent t ≠ i) || ArticlePC_done (a_pc t)) ts.

Definition step_feed (c : Config) (i : nat) : option Config :=
  t ← feedthreads c !! i;
  let feed := f_feed t in
  let goto pc c := set_feedthreads (<[i := set_f_pc pc t]> (feedthreads c)) c in
  match f_pc t with
  | FBegin =>
      let c := write [ (cout, "Begin full download of feed URI: " ++ feed.1 ++ endl) ] c in
      match feedParse feed.1 with
      | None => Some (goto FCatch c)
      | Some articles => Some (goto (FParsed articles) c)
      end
  | FCatch =>
      Some (goto FDone
              (set_feedsAllowed (signal (feedsAllowed c))
                 (write [ (cerr, "Ran into trouble while pulling full RSS feed from "
                                 ++ dq ++ feed.1 ++ dq ++ "." ++ endl);
                          (cerr, "Aborting...." ++ endl) ]
                    c)))
  | FParsed articles =>
      Some (goto (FLoop articles) (set_feedsAllowed (signal (feedsAllowed c)) c))
  | FLoop (article :: rest) =>
      let serverurl := getURLServer (url article) in
      let locks :=
        match serverlocks c !! serverurl with
        | None => <[serverurl := kMaxTperS]> (serverlocks c)
        | Some _ => serverlocks c
        end in
      Some (goto (FHostWait article serverurl rest) (set_serverlocks locks c))
  | FHostWait article serverurl rest =>
      s ← serverlocks c !! serverurl;
      n ← wait s;
      let t' := {| a_article := article; a_up := serverurl; a_parent := i;
                   a_title := ""; a_url := ""; a_doc := ""; a_pc := AWait |} in
      Some (goto (FLoop rest)
              (set_articlethreads (articlethreads c ++ [t'])
                 (set_serverlocks (<[serverurl := n]> (serverlocks c)) c)))
  | FLoop [] =>
      if joined i (articlethreads c)
      then Some (goto FDone
                   (write [ (cout, "End full download of feed URI: " ++ feed.1 ++ endl) ] c))
      else None
  | FDone => None
  end.

Definition step_main (c : Config) : option Config :=
  match mainpc c with
  | MStart exe args =>
      match args with
      | [uri] => Some (set_mainpc (MFeedList uri) c)
      | _ =>
          Some (set_mainpc (MExited 0%Z)
                  (write [ (cerr, "Error: wrong number of arguments." ++ endl);
                           (cerr, "Usage: " ++ exe ++ " <feed-url>" ++ endl) ] c))
      end
  | MFeedList uri =>
      match feedListParse uri with
      | None =>
          Some (set_mainpc (MExited 0%Z)
                  (write [ (cerr, "Ran into trouble while pulling full RSS feed list from "
                                  ++ dq ++ uri ++ dq ++ "." ++ endl);
                           (cerr, "Aborting...." ++ endl) ] c))
      | Some allfeeds => Some (set_mainpc (MSpawn allfeeds) c)
      end
  | MSpawn (feed :: rest) =>
      n ← wait (feedsAllowed c);
      Some (set_mainpc (MSpawn rest)
              (set_feedthreads (feedthreads c ++ [ {| f_feed := feed; f_pc := FBegin |} ])
                 (set_feedsAllowed n c)))
  | MSpawn [] =>
      if forallb (λ t, FeedPC_done (f_pc t)) (feedthreads c)
      then Some (set_mainpc MQuery c)
      else None
  | MQuery =>
      let '(o, e) := queryIndex (index c) (cin c) in
      match e with
      | Some rest =>
          Some (set_mainpc (MExited 0%Z)
                  (set_cin rest
                     (write ((cout, endl) :: o ++ [ (cout, "Exiting...." ++ endl) ]) c)))
      | None =>
          Some (set_mainpc MQueryForever (set_cin [] (write ((cout, endl) :: o) c)))
      end
  | MQueryForever => None
  | MExited _ => None
  end.

(** One step of the thread [tid]; [None] when it is blocked, has
    returned or does not exist. *)
Definition step (c : Config) (tid : Tid) : option Config :=
  match tid with
  | TMain => step_main c
  | TFeed i => step_feed c i
  | TArticle i => step_article c i
  end.

(** A schedule names the thread to advance at each turn; a thread that
    cannot move when named is passed over. *)
Definition run (c : Config) (schedule : list Tid) : Config :=
  foldl (λ c tid, default c (step c tid)) c schedule.

End Steps.

(** The state in which the process starts: [exe] is [argv[0]], [args]
    are the arguments after it (so [argc] is [1 + length args]), [input]
    the lines of standard input. *)
Definition init (exe : string) (args : list string) (input : list string) : Config :=
  {| feedsAllowed := kMaxfeed; threadsAllowed := kMaxthread;
     serverlocks := ∅; index := RSSIndex.empty; output := []; cin := input;
     mainpc := MStart exe args; feedthreads := []; articlethreads := [] |}.

(** ** Vocabulary of the statements *)

(** Counts do not increase along the list. *)
Fixpoint desc (l : list (Article * Z)) : Prop :=
  match l with
  | [] => True
  | x :: l' => match l' with [] => True | y :: _ => (y.2 ≤ x.2)%Z end ∧ desc l'
  end.

(** The sum of a quantity over the threads of a list. *)
Definition total {A} (f : A → nat) (l : list A) : nat := sum_list_with f l.

(** An article thread holds a permit of [threadsAllowed] from its
    [wait] (line 70) to its [signal] (line 84 or 92). *)
Definition holds_thread (t : ArticleThread) : bool :=
  match a_pc t with
  | ARun | AFetch | ACatch | AParsed _ | ASignal => true
  | AWait | AHostSignal | ADone => false
  end.

(** It holds a permit of the semaphore of its server, which its feed
    thread took for it (line 124), until its last [signal] (line 85 or
    93). *)
Definition holds_host (h : string) (t : ArticleThread) : bool :=
  bool_decide (a_up t = h) && negb (ArticlePC_done (a_pc t)).

(** A feed thread holds a permit of [feedsAllowed], which the main
    thread took for it (line 147), until its [signal] (line 110 or
    113). *)
Definition holds_feed (t : FeedThread) : bool :=
  match f_pc t with
  | FBegin | FCatch | FParsed _ => true
  | _ => false
  end.

(** The fetch of an article is in flight while its thread is inside
    [htmlDoc.parse()]. *)
Definition fetching (t : ArticleThread) : bool :=
  match a_pc t with AFetch => true | _ => false end.

Definition in_flight (c : Config) : nat :=
  total (λ t, Nat.b2n (fetching t)) (articlethreads c).

Section Vocabulary.
Context `{Externals}.

(** The fetches in flight against the server [h]. *)
Definition in_flight_at (h : string) (c : Config) : nat :=
  total (λ t, Nat.b2n (fetching t && bool_decide (getURLServer (url (a_article t)) = h)))
        (articlethreads c).

(** What holds of every article thread of a run. *)
Definition article_ok (t : ArticleThread) : Prop :=
  a_up t = getURLServer (url (a_article t)) ∧
  match a_pc t with
  | AFetch => a_doc t = url (a_article t)
  | ACatch => a_doc t = url (a_article t) ∧ htmlParse (url (a_article t)) = None
  | AParsed tokens => htmlParse (url (a_article t)) = Some tokens
  | ASignal => is_Some (htmlParse (url (a_article t)))
  | _ => True
  end.

(** What holds of every feed thread of a run. *)
Definition feed_ok (locks : gmap string semaphore) (t : FeedThread) : Prop :=
  match f_pc t with
  | FBegin | FDone => True
  | FCatch => feedParse (f_feed t).1 = None
  | FParsed articles => feedParse (f_feed t).1 = Some articles
  | FLoop _ => is_Some (feedParse (f_feed t).1)
  | FHostWait article serverurl _ =>
      is_Some (feedParse (f_feed t).1) ∧ is_Some (locks !! serverurl) ∧
      serverurl = getURLServer (url article)
  end.

(** The invariant of the crawl: every permit is either free or held
    by a thread. *)
Record Inv (c : Config) : Prop := {
  inv_threads :
    threadsAllowed c + total (λ t, Nat.b2n (holds_thread t)) (articlethreads c)
    = kMaxthread;
  inv_hosts : ∀ h,
    match serverlocks c !! h with
    | Some n => n + total (λ t, Nat.b2n (holds_host h t)) (articlethreads c) = kMaxTperS
    | None => total (λ t, Nat.b2n (holds_host h t)) (articlethreads c) = 0
    end;
  inv_feeds :
    feedsAllowed c + total (λ t, Nat.b2n (holds_feed t)) (feedthreads c) = kMaxfeed;
  inv_articles : Forall article_ok (articlethreads c);
  inv_feedthreads : Forall (feed_ok (serverlocks c)) (feedthreads c);
}.

(** The steps a thread still has to take, at most. *)
Definition article_steps (pc : ArticlePC) : nat :=
  match pc with
  | AWait => 6 | ARun => 5 | AFetch => 4 | AParsed _ => 3
  | ACatch => 2 | ASignal => 2 | AHostSignal => 1 | ADone => 0
  end.

Definition loop_steps (articles : list Article) : nat := 1 + 8 * length articles.

Definition begin_steps (feed : string * string) : nat :=
  match feedParse feed.1 with
  | None => 2
  | Some articles => 2 + loop_steps articles
  end.

Definition feed_steps (t : FeedThread) : nat :=
  match f_pc t with
  | FBegin => begin_steps (f_feed t)
  | FCatch => 1
  | FParsed articles => 1 + loop_steps articles
  | FLoop rest => loop_steps rest
  | FHostWait _ _ rest => 7 + loop_steps rest
  | FDone => 0
  end.

Definition spawn_steps (feeds : list (string * string)) : nat :=
  2 + total (λ f, 1 + begin_steps f) feeds.

Definition feedlist_steps (uri : string) : nat :=
  match feedListParse uri with
  | None => 1
  | Some feeds => 1 + spawn_steps feeds
  end.

Definition main_steps (pc : MainPC) : nat :=
  match pc with
  | MStart _ [uri] => 1 + feedlist_steps uri
  | MStart _ _ => 1
  | MFeedList uri => feedlist_steps uri
  | MSpawn rest => spawn_steps rest
  | MQuery => 1
  | MQueryForever | MExited _ => 0
  end.

(** The steps the whole program still has to take, at most. *)
Definition measure (c : Config) : nat :=
  main_steps (mainpc c) + total feed_steps (feedthreads c)
  + total (λ t, article_steps (a_pc t)) (articlethreads c).

(** What holds all along a run in which every feed of the feed list
    fails. *)
Definition all_fail (c : Config) : Prop :=
  index c = RSSIndex.empty ∧ articlethreads c = [] ∧
  Forall (λ ft, feedParse (f_feed ft).1 = None) (feedthreads c) ∧
  match mainpc c with
  | MStart _ args =>
      ∃ uri feeds, args = [uri] ∧ feedListParse uri = Some feeds ∧
                   Forall (λ f, feedParse f.1 = None) feeds
  | MFeedList uri =>
      ∃ feeds, feedListParse uri = Some feeds ∧
               Forall (λ f, feedParse f.1 = None) feeds
  | MSpawn rest => Forall (λ f, feedParse f.1 = None) rest
  | MQuery => True
  | MQueryForever => prompt ∈ output c
  | MExited status => status = 0%Z ∧ prompt ∈ output c
  end.

(** An article as a feed delivers it: an element of what the [parse]
    of some feed returns. *)
Definition delivered (a : Article) : Prop :=
  ∃ feedurl articles, feedParse feedurl = Some articles ∧ a ∈ articles.

(** Every article the program holds, in a thread or in the index, is
    one a feed delivered. *)
Definition provenance (c : Config) : Prop :=
  Forall (λ t, delivered (a_article t)) (articlethreads c) ∧
  Forall (λ ft, match f_pc ft with
                | FParsed l | FLoop l => Forall delivered l
                | FHostWait a _ l => delivered a ∧ Forall delivered l
                | _ => True
                end) (feedthreads c) ∧
  ∀ token e, e ∈ RSSIndex.entries (index c) token → delivered e.1.

End Vocabulary.

(** *** Display and state *)

(** The same helpers and network, with other functions to shorten what
    is displayed. *)
Definition with_truncation (X : Externals)
    (should : string → bool) (cut : string → string) : Externals :=
  {| trim := @trim X; shouldTruncate := should; truncate := cut;
     getURLServer := @getURLServer X; feedListParse := @feedListParse X;
     feedParse := @feedParse X; htmlParse := @htmlParse X |}.

(** Two worlds that differ at most in how they shorten what is
    displayed. *)
Definition same_network (X1 X2 : Externals) : Prop :=
  @trim X1 = @trim X2 ∧ @getURLServer X1 = @getURLServer X2 ∧
  @feedListParse X1 = @feedListParse X2 ∧ @feedParse X1 = @feedParse X2 ∧
  @htmlParse X1 = @htmlParse X2.

(** A thread without its local copies [title] and [url], which are only
    displayed. *)
Definition hide_thread (t : ArticleThread) : ArticleThread :=
  {| a_article := a_article t; a_up := a_up t; a_parent := a_parent t;
     a_title := ""; a_url := ""; a_doc := a_doc t; a_pc := a_pc t |}.

(** A state without what is displayed: the output and the local copies
    of the article threads. *)
Definition hide (c : Config) : Config :=
  {| feedsAllowed := feedsAllowed c; threadsAllowed := threadsAllowed c;
     serverlocks := serverlocks c; index := index c; output := [];
     cin := cin c; mainpc := mainpc c; feedthreads := feedthreads c;
     articlethreads := hide_thread <$> articlethreads c |}.

(** The main thread has left the program, or never will. *)
Definition finished (pc : MainPC) : bool :=
  match pc with
  | MExited _ | MQueryForever => true
  | _ => false
  end.

(** ** Schedules *)

Section Schedules.
Context `{Externals}.

(** The threads of a state, article threads first. *)
Definition threads (c : Config) : list Tid :=
  (TArticle <$> seq 0 (length (articlethreads c)))
  ++ (TFeed <$> seq 0 (length (feedthreads c))) ++ [TMain].

(** The first thread that can move. *)
Definition first_enabled (c : Config) : option Tid :=
  List.find (λ tid, bool_decide (is_Some (step c tid))) (threads c).

(** The schedule that always advances the first thread that can move,
    for [fuel] turns at most. *)
Fixpoint drive (fuel : nat) (c : Config) : list Tid :=
  match fuel with
  | O => []
  | S fuel =>
      match first_enabled c with
      | None => []
      | Some tid => tid :: drive fuel (default c (step c tid))
      end
  end.

End Schedules.

(** ** A small world *)

(** The helpers and the network of the examples below: [trim] strips
    white space at both ends, a string of more than ten characters is
    cut to seven and an ellipsis, the server of a URL is what precedes
    its first slash. *)
Fixpoint demo_ltrim (s : string) : string :=
  match s with
  | String a s' => if Ascii.is_space a then demo_ltrim s' else s
  | EmptyString => EmptyString
  end.

Definition demo_trim (s : string) : string :=
  String.rev (demo_ltrim (String.rev (demo_ltrim s))).

Fixpoint demo_server (s : string) : string :=
  match s with
  | String a s' => if decide (a = Ascii.ascii_of_nat 47) then "" else String a (demo_server s')
  | EmptyString => EmptyString
  end.

Definition demo_a : Article :=
  {| url := "a.com/1"; title := "A long title that is cut" |}.
Definition demo_b : Article := {| url := "b.com/1"; title := "B" |}.
Definition demo_x : Article := {| url := "b.com/broken"; title := "X" |}.

Definition demo : Externals :=
  {| trim := demo_trim;
     shouldTruncate := λ s, bool_decide (10 < String.length s);
     truncate := λ s, String.substring 0 7 s ++ "...";
     getURLServer := demo_server;
     feedListParse := λ uri,
       if decide (uri = "feeds.xml")
       then Some [("feedA", "Feed A"); ("feedB", "Feed B"); ("feedC", "Feed C")]
       else if decide (uri = "dead.xml")
       then Some [("feedC", "Feed C"); ("feedD", "Feed D")]
       else None;
     feedParse := λ u,
       if decide (u = "feedA") then Some [demo_a]
       else if decide (u = "feedB") then Some [demo_b; demo_x]
       else None;
     htmlParse := λ u,
       if decide (u = "a.com/1") then Some ["rust"; "rust"; "go"]
       else if decide (u = "b.com/1") then Some ["go"]
       else None |}.

(** Sixteen matches, with the counts 16 down to 1. *)
Definition demo_matches : list (Article * Z) :=
  (λ n, ({| url := "u" ++ pretty n; title := "t" ++ pretty n |}, Z.of_nat (17 - n)))
  <$> seq 1 16.

Definition demo_index : RSSIndex.t :=
  RSSIndex.add demo_b ["go"; "go"]
    (RSSIndex.add demo_a ["rust"; "rust"; "go"] RSSIndex.empty).

Definition demo_input : list string := ["  go "; "rust"; "python"; " "; "unread"].

(** The schedule that runs the crawl of the three feeds and the query
    loop to the end, one thread at a time. *)
Definition demo_schedule : list Tid :=
  drive (H := demo) 200 (init "news" ["feeds.xml"] demo_input).

(** A schedule that brings the two articles of the second feed into
    their fetch at the same time. *)
Definition demo_overlap : list Tid :=
  [TMain; TMain; TMain; TMain;
   TFeed 1; TFeed 1; TFeed 1; TFeed 1; TFeed 1; TFeed 1;
   TArticle 0; TArticle 0; TArticle 1; TArticle 1].

(** ** Vocabulary of the further statements *)

(** The articles a feed thread still has to hand to a thread of their
    own. *)
Definition pending (pc : FeedPC) : list Article :=
  match pc with
  | FParsed l | FLoop l => l
  | FHostWait a _ l => a :: l
  | FBegin | FCatch | FDone => []
  end.

(** The article threads the feed thread [i] created. *)
Definition children (i : nat) (ts : list ArticleThread) : list ArticleThread :=
  filter (λ t, a_parent t = i) ts.

(** An article thread is past line 91 (or past its handler). *)
Definition passed_add (pc : ArticlePC) : bool :=
  match pc with
  | ASignal | AHostSignal | ADone => true
  | _ => false
  end.

(** The main thread is past the [join] of line 150. *)
Definition crawl_over (pc : MainPC) : bool :=
  match pc with
  | MQuery | MQueryForever | MExited _ => true
  | _ => false
  end.

Section Further.
Context `{Externals}.

(** Every thread named by the schedule can move when its turn comes. *)
Fixpoint moves (c : Config) (schedule : list Tid) : Prop :=
  match schedule with
  | [] => True
  | tid :: schedule =>
      match step c tid with
      | Some c' => moves c' schedule
      | None => False
      end
  end.

(** How often a token occurs in the document at a URL; a document that
    cannot be fetched has no tokens. *)
Definition word_count (token u : string) : nat :=
  match htmlParse u with
  | Some tokens => length (filter (λ x, x = token) tokens)
  | None => 0
  end.

(** What an article counts for under a token and a URL. *)
Definition article_count (token u : string) (a : Article) : nat :=
  if decide (url a = u) then word_count token u else 0.

(** What an article thread has added to the index under a token and a
    URL. *)
Definition contribution (token u : string) (t : ArticleThread) : nat :=
  if passed_add (a_pc t) then article_count token u (a_article t) else 0.


(** The feed thread [i] has handed to threads of their own, in order,
    the articles of its feed that it no longer holds. *)
Definition fanout_ok (ts : list ArticleThread) (i : nat) (ft : FeedThread) : Prop :=
  ((a_article <$> children i ts) ++ pending (f_pc ft))%list =
  match f_pc ft with
  | FBegin => []
  | _ => default [] (feedParse (f_feed ft).1)
  end.

(** The main thread has started, in order, the feeds of the list that
    it no longer holds. *)
Definition launch_ok (args : list string) (c : Config) : Prop :=
  match mainpc c with
  | MStart _ a => a = args ∧ feedthreads c = []
  | MFeedList uri => args = [uri] ∧ feedthreads c = []
  | MSpawn rest =>
      ∃ uri all, args = [uri] ∧ feedListParse uri = Some all ∧
                 ((f_feed <$> feedthreads c) ++ rest)%list = all
  | MQuery | MQueryForever =>
      (∃ uri all, args = [uri] ∧ feedListParse uri = Some all ∧
                  f_feed <$> feedthreads c = all) ∧
      Forall (λ ft, FeedPC_done (f_pc ft)) (feedthreads c)
  | MExited _ =>
      (∀ uri all, args = [uri] → feedListParse uri = Some all →
                  f_feed <$> feedthreads c = all) ∧
      Forall (λ ft, FeedPC_done (f_pc ft)) (feedthreads c)
  end.

(** The shape of the tree of threads all along a run. *)
Record Shape (args : list string) (c : Config) : Prop := {
  shape_launch : launch_ok args c;
  shape_fanout : ∀ i ft, feedthreads c !! i = Some ft → fanout_ok (articlethreads c) i ft;
  shape_parent : Forall (λ t, a_parent t < length (feedthreads c)) (articlethreads c);
  shape_joined : ∀ i ft,
    feedthreads c !! i = Some ft → FeedPC_done (f_pc ft) →
    Forall (λ t, a_parent t = i → ArticlePC_done (a_pc t)) (articlethreads c);
}.

End Further.

Section FurtherIndex.
Context `{Externals}.

(** The index holds, under every token and URL, what the article
    threads past their [add] have added. *)
Definition Counted (c : Config) : Prop :=
  ∀ token u,
    RSSIndex.count (index c) token u
    = Z.of_nat (total (contribution token u) (articlethreads c)).

End FurtherIndex.

(** * Theorems *)


(** ** The index *)

Section IndexFacts.
Import RSSIndex.
Local Open Scope Z_scope.
Implicit Types (a : Article) (es : list (Article * Z)) (idx : RSSIndex.t).

(** The end-to-end example of the spec, section 8. *)
Example add_example :
  let a := {| url := "http://a/1"; title := "A" |} in
  let b := {| url := "http://b/1"; title := "B" |} in
  let idx := add b ["go"] (add a ["rust"; "rust"; "go"] empty) in
  getMatchingArticles idx "rust" = [(a, 2)] ∧
  getMatchingArticles idx "go" = [(a, 1); (b, 1)] ∧
  getMatchingArticles idx "python" = [].
Proof. vm_compute. done. Qed.

Lemma entries_add_token a idx tok token :
  entries (add_token a idx tok) token =
  if decide (tok = token) then bump a (entries idx token) else entries idx token.
Proof.
  unfold add_token, entries at 1. case_decide as E.
  - subst. by rewrite lookup_insert_eq.
  - by rewrite lookup_insert_ne.
Qed.

Lemma add_snoc a tokens tok idx :
  add a (tokens ++ [tok]) idx = add_token a (add a tokens idx) tok.
Proof. unfold add. by rewrite foldl_snoc. Qed.

(** The entries of a token after [add]: one [bump] for each of its
    occurrences in the sequence. *)
Lemma entries_add a tokens idx token :
  entries (add a tokens idx) token =
  Nat.iter (length (filter (λ x, x = token) tokens)) (bump a) (entries idx token).
Proof.
  induction tokens as [|tok tokens IH] using rev_ind; [done|].
  rewrite add_snoc, entries_add_token, filter_app, length_app, IH.
  rewrite filter_cons, filter_nil. case_decide; simpl.
  - by rewrite Nat.add_1_r.
  - by rewrite Nat.add_0_r.
Qed.

Lemma count_in_bump a es u :
  count_in u (bump a es) = count_in u es + (if decide (url a = u) then 1 else 0).
Proof.
  induction es as [|[b n] es IH]; simpl.
  - repeat case_decide; lia.
  - destruct (decide (url b = url a)) as [E|E]; simpl.
    + repeat case_decide; try lia; congruence.
    + rewrite IH. repeat case_decide; try lia; congruence.
Qed.

Lemma count_in_iter_bump a es u k :
  count_in u (Nat.iter k (bump a) es) =
  count_in u es + (if decide (url a = u) then Z.of_nat k else 0).
Proof.
  induction k as [|k IH]; simpl.
  - case_decide; lia.
  - rewrite count_in_bump, IH. repeat case_decide; lia.
Qed.

(** What [add] does to every count. *)
Lemma count_add a tokens idx token u :
  count (add a tokens idx) token u =
  count idx token u + (if decide (url a = u) then occurrences token tokens else 0).
Proof. unfold count, occurrences. by rewrite entries_add, count_in_iter_bump. Qed.





Lemma elem_of_bump a es e :
  e ∈ bump a es → e.1 = a ∨ ∃ e', e' ∈ es ∧ e'.1 = e.1.
Proof.
  induction es as [|[b n] es IH]; simpl.
  - intros ->%list_elem_of_singleton. by left.
  - case_decide.
    + intros [->|Hin]%elem_of_cons; right.
      * exists (b, n). split; [apply list_elem_of_here|done].
      * exists e. split; [by apply list_elem_of_further|done].
    + intros [->|Hin]%elem_of_cons.
      * right. exists (b, n). split; [apply list_elem_of_here|done].
      * destruct (IH Hin) as [?|(e' & ? & ?)]; [by left|right].
        exists e'. split; [by apply list_elem_of_further|done].
Qed.

Lemma elem_of_iter_bump a es e k :
  e ∈ Nat.iter k (bump a) es → e.1 = a ∨ ∃ e', e' ∈ es ∧ e'.1 = e.1.
Proof.
  revert e. induction k as [|k IH]; simpl; intros e Hin.
  - right. by exists e.
  - apply elem_of_bump in Hin as [?|(e' & Hin & <-)]; [by left|]. by apply IH.
Qed.

(** The articles of the index after [add] are the article added and
    the ones that were there. *)
Lemma elem_of_entries_add a tokens idx token e :
  e ∈ entries (add a tokens idx) token →
  e.1 = a ∨ ∃ e', e' ∈ entries idx token ∧ e'.1 = e.1.
Proof. rewrite entries_add. apply elem_of_iter_bump. Qed.

Lemma insert_desc_Permutation e l : insert_desc e l ≡ₚ e :: l.
Proof.
  induction l as [|x l IH]; simpl; [done|].
  case_bool_decide; [|done]. rewrite IH. apply Permutation_swap.
Qed.

(** The query returns the entries of the term, all of them and no
    other. *)
Lemma sort_desc_Permutation l : sort_desc l ≡ₚ l.
Proof.
  induction l as [|x l IH]; simpl; [done|].
  by rewrite insert_desc_Permutation, IH.
Qed.


Lemma desc_insert_desc e l : desc l → desc (insert_desc e l).
Proof.
  induction l as [|x l IH]; simpl; [done|].
  intros [Hx Hl]. case_bool_decide as E; simpl.
  - split; [|by apply IH].
    destruct l as [|y l]; simpl in *; [lia|].
    case_bool_decide; simpl; lia.
  - repeat split; try done. lia.
Qed.

Lemma desc_sort_desc l : desc (sort_desc l).
Proof. induction l; simpl; [done|]. by apply desc_insert_desc. Qed.

Lemma desc_adjacent l i e1 e2 :
  desc l → l !! i = Some e1 → l !! S i = Some e2 → e2.2 ≤ e1.2.
Proof.
  revert i. induction l as [|x l IH]; intros i Hd H1 H2; [done|].
  destruct Hd as [Hx Hl]. destruct i as [|i]; simpl in *.
  - destruct l; simplify_eq/=. done.
  - by eapply IH.
Qed.

(** C3.  The sequence returned by the index query is ordered by
    non-increasing occurrence count: of two adjacent entries, the
    earlier has a count greater than or equal to that of the later. *)
Theorem getMatchingArticles_nonincreasing idx term i e1 e2 :
  getMatchingArticles idx term !! i = Some e1 →
  getMatchingArticles idx term !! S i = Some e2 →
  e2.2 ≤ e1.2.
Proof. apply desc_adjacent, desc_sort_desc. Qed.


End IndexFacts.

(** ** The query loop *)

Section QueryFacts.
Context `{Externals}.
Local Open Scope Z_scope.
Implicit Types (matches : list (Article * Z)) (idx : RSSIndex.t).

(** The loop with its counter and its [break] writes the entries of
    the first matches, as many as the counter leaves room for, each
    under the rank that follows the counter. *)
Lemma showMatches_take count matches :
  (count ≤ kMaxMatchesToShow)%nat →
  showMatches count matches =
  concat (imap (λ i m, entry (S (count + i)) m)
               (take (kMaxMatchesToShow - count) matches)).
Proof.
  revert count.
  induction matches as [|m matches IH]; intros count Hc; cbn [showMatches].
  - by rewrite take_nil.
  - case_decide as E.
    + subst. by rewrite Nat.sub_diag.
    + replace (kMaxMatchesToShow - count)%nat
        with (S (kMaxMatchesToShow - S count)) by lia.
      rewrite firstn_cons, imap_cons. cbn [concat].
      rewrite Nat.add_0_r. f_equal.
      rewrite IH by lia. f_equal. apply imap_ext. intros i x _. simpl.
      f_equal. lia.
Qed.

(** C5.  For a match list of more than 15 entries the rendering is
    the summary with the full match count, the heading for the top 15,
    and then, for each of the first 15 matches and no other, in order,
    the two lines of the match: the line with its rank, its title
    (shortened when overlong), its count and "time" or "times", and the
    line with its URL (shortened when overlong); the ranks written are
    " 1" to "15".  For a (non-empty) list of 15 entries or fewer the
    rendering is the summary, the heading and the two lines of every
    match, under the ranks from 1 on. *)
Theorem report_display_cap response matches :
  let cut s := if shouldTruncate s then truncate s else s in
  let lines (i : nat) (m : Article * Z) : list Out :=
    [ (cout, "  " ++ setw 2 (pretty (S i)) ++ ".) " ++ dq ++ cut (title m.1) ++ dq
             ++ " [appears " ++ pretty m.2 ++ " "
             ++ (if decide (m.2 = 1) then "time" else "times") ++ "]." ++ endl);
      (cout, "       " ++ dq ++ cut (url m.1) ++ dq ++ endl) ] in
  ((15 < length matches)%nat →
     report response matches =
       (cout, "That term appears in " ++ pretty (length matches) ++ " articles.  ")
       :: (cout, "Here are the top 15 of them:" ++ endl)
       :: concat (imap lines (take 15 matches))
     ∧ length (take 15 matches) = 15%nat
     ∧ length (concat (imap lines (take 15 matches))) = 30%nat) ∧
  ((0 < length matches ≤ 15)%nat →
     report response matches =
       (cout, "That term appears in " ++ pretty (length matches) ++ " article"
              ++ (if decide (length matches = 1%nat) then "" else "s") ++ ".  ")
       :: (cout, "Here they are:" ++ endl)
       :: concat (imap lines matches)) ∧
  (λ i, setw 2 (pretty (S i))) <$> seq 0 15 =
    [" 1"; " 2"; " 3"; " 4"; " 5"; " 6"; " 7"; " 8"; " 9";
     "10"; "11"; "12"; "13"; "14"; "15"].
Proof.
  intros cut lines.
  assert (∀ l : list (Article * Z),
            concat (imap (λ i m, entry (S i) m) l) = concat (imap lines l)) as Hlines.
  { intros l. f_equal. }
  assert (∀ l : list (Article * Z),
            length (concat (imap lines l)) = (2 * length l)%nat) as Hlen.
  { assert (∀ (f : nat → Article * Z → list Out) l,
              (∀ i m, length (f i m) = 2%nat) →
              length (concat (imap f l)) = (2 * length l)%nat) as Hgen.
    { intros f l. revert f. induction l as [|m l IH]; intros f Hf; [done|].
      rewrite imap_cons. cbn [concat]. rewrite length_app, Hf, IH.
      - cbn [length]. lia.
      - intros i m'. apply Hf. }
    intros l. by apply Hgen. }
  split_and!.
  - intros Hn. split_and!; [|rewrite length_take; lia
                            |rewrite Hlen, length_take; lia].
    destruct matches as [|m matches]; [simpl in Hn; lia|].
    unfold report. rewrite showMatches_take by (unfold kMaxMatchesToShow; lia).
    unfold summary, heading.
    rewrite decide_False by lia.
    rewrite decide_True by (unfold kMaxMatchesToShow; lia).
    rewrite <- Hlines. done.
  - intros Hn. destruct matches as [|m matches]; [simpl in Hn; lia|].
    unfold report. rewrite showMatches_take by (unfold kMaxMatchesToShow; lia).
    unfold heading. rewrite decide_False by (unfold kMaxMatchesToShow; lia).
    rewrite take_ge by (unfold kMaxMatchesToShow; lia).
    rewrite <- Hlines. done.
  - vm_compute. reflexivity.
Qed.

(** C7.  The loop trims each line; for each line that trims to a
    non-empty term it queries the index with the trimmed term, reports
    and prompts again; at the first line that trims to the empty string
    it ends, leaving the lines after it unread. *)
Theorem queryIndex_ends_at_empty idx before line after :
  Forall (λ l, trim l ≠ "") before →
  trim line = "" →
  queryIndex idx (before ++ line :: after) =
    ((concat (answered idx <$> before) ++ [prompt])%list, Some after).
Proof.
  intros Hb Hl. induction Hb as [|l before Hne _ IH]; simpl.
  - by rewrite decide_True.
  - rewrite decide_False by done. rewrite IH. unfold answered.
    simpl. by rewrite <- app_assoc.
Qed.

(** When no line trims to the empty string the loop runs to the end
    of the input, where the response is the trimmed empty string. *)
Lemma queryIndex_to_end idx input :
  Forall (λ l, trim l ≠ "") input →
  queryIndex idx input =
    ((concat (answered idx <$> input) ++ [prompt])%list,
     if decide (trim "" = "") then Some [] else None).
Proof.
  intros Hb. induction Hb as [|l before Hne _ IH]; simpl.
  - by case_decide.
  - rewrite decide_False by done. rewrite IH. unfold answered.
    simpl. by rewrite <- app_assoc.
Qed.

End QueryFacts.

(** ** The crawl *)

Section TotalFacts.
Context {A : Type}.
Implicit Types (f : A → nat) (l : list A).

Lemma total_nil f : total f [] = 0.
Proof. done. Qed.

Lemma total_cons f x l : total f (x :: l) = f x + total f l.
Proof. done. Qed.

Lemma total_app f l1 l2 : total f (l1 ++ l2) = total f l1 + total f l2.
Proof. apply sum_list_with_app. Qed.

Lemma total_snoc f l x : total f (l ++ [x]) = total f l + f x.
Proof. rewrite total_app, total_cons, total_nil. lia. Qed.

(** Replacing one thread changes the sum by the difference of its two
    states. *)
Lemma total_insert f l i x y :
  l !! i = Some x → total f (<[i:=y]> l) + f x = total f l + f y.
Proof.
  unfold total. revert i.
  induction l as [|z l IH]; intros [|i] Hi; simplify_eq/=; [lia|].
  specialize (IH _ Hi). lia.
Qed.

Lemma total_insert_same f l i x y :
  l !! i = Some x → f y = f x → total f (<[i:=y]> l) = total f l.
Proof. intros Hi E. pose proof (total_insert f l i x y Hi). lia. Qed.

Lemma total_lookup_le f l i x : l !! i = Some x → f x ≤ total f l.
Proof.
  unfold total. revert i.
  induction l as [|z l IH]; intros [|i] Hi; simplify_eq/=; [lia|].
  specialize (IH _ Hi). lia.
Qed.

Lemma total_le f g l : (∀ x, f x ≤ g x) → total f l ≤ total g l.
Proof.
  intros Hfg. induction l as [|z l IH]; [done|].
  rewrite !total_cons. specialize (Hfg z). lia.
Qed.

Lemma total_le_Forall f g l :
  Forall (λ x, f x ≤ g x) l → total f l ≤ total g l.
Proof.
  induction 1 as [|z l Hz _ IH]; [done|]. rewrite !total_cons. lia.
Qed.

Lemma total_pos f l :
  0 < total f l → ∃ i x, l !! i = Some x ∧ 0 < f x.
Proof.
  induction l as [|z l IH]; [rewrite total_nil; lia|].
  rewrite total_cons. intros Hp. destruct (decide (0 < f z)) as [Hz|Hz].
  - by exists 0, z.
  - destruct IH as (i & x & Hi & Hx); [lia|]. by exists (S i), x.
Qed.

Lemma total_zero f l : total f l = 0 ↔ Forall (λ x, f x = 0) l.
Proof.
  induction l as [|z l IH]; [by split|].
  rewrite total_cons, Forall_cons, <- IH. lia.
Qed.

End TotalFacts.

Section CrawlFacts.
Context `{Externals}.
Implicit Types (c : Config) (t : ArticleThread) (ft : FeedThread).

Lemma feed_ok_mono (l l' : gmap string semaphore) ft :
  (∀ h, is_Some (l !! h) → is_Some (l' !! h)) → feed_ok l ft → feed_ok l' ft.
Proof.
  intros Hm. unfold feed_ok. destruct (f_pc ft); try done.
  intros (? & ? & ?). eauto.
Qed.

Lemma is_Some_insert_mono (l : gmap string semaphore) k n h :
  is_Some (l !! h) → is_Some (<[k:=n]> l !! h).
Proof.
  destruct (decide (k = h)) as [->|].
  - rewrite lookup_insert_eq. eauto.
  - by rewrite lookup_insert_ne.
Qed.

Lemma Inv_init exe args input : Inv (init exe args input).
Proof. split; simpl; try done. Qed.

(** The permit a thread holds exists: its semaphore was created before
    the permit was taken. *)
Lemma Inv_host_Some c i t :
  Inv c → articlethreads c !! i = Some t → a_pc t ≠ ADone →
  is_Some (serverlocks c !! a_up t).
Proof.
  intros HI Ht Hpc. pose proof (inv_hosts c HI (a_up t)) as Hh.
  destruct (serverlocks c !! a_up t); [eauto|].
  pose proof (total_lookup_le (λ t0, Nat.b2n (holds_host (a_up t) t0)) _ _ _ Ht) as Hle.
  unfold holds_host in Hle at 1. rewrite bool_decide_true in Hle by done.
  destruct (a_pc t); simpl in *; try lia; done.
Qed.

(** A step of an article thread keeps the invariant when it moves the
    permits the way the thread's new state says. *)
Lemma Inv_article_update c c' i t t' :
  Inv c → articlethreads c !! i = Some t →
  articlethreads c' = <[i:=t']> (articlethreads c) →
  feedthreads c' = feedthreads c → feedsAllowed c' = feedsAllowed c →
  a_up t' = a_up t → article_ok t' →
  threadsAllowed c' + Nat.b2n (holds_thread t')
    = threadsAllowed c + Nat.b2n (holds_thread t) →
  (serverlocks c' = serverlocks c ∧
     ArticlePC_done (a_pc t') = ArticlePC_done (a_pc t)) ∨
  (∃ n, serverlocks c !! a_up t = Some n ∧
     serverlocks c' = <[a_up t := signal n]> (serverlocks c) ∧
     ArticlePC_done (a_pc t) = false ∧ ArticlePC_done (a_pc t') = true) →
  Inv c'.
Proof.
  intros [I1 I2 I3 I4 I5] Ht Ha Hf Hfa Hup Hok Hth Hlocks.
  split.
  - rewrite Ha.
    pose proof (total_insert (λ t, Nat.b2n (holds_thread t)) _ _ _ t' Ht). lia.
  - intros h. rewrite Ha. specialize (I2 h).
    set (f := λ t, Nat.b2n (holds_host h t)) in *.
    pose proof (total_insert f _ _ _ t' Ht) as T.
    destruct Hlocks as [[-> Hd]|(n & Hn & -> & Hd & Hd')].
    + assert (f t' = f t) as E by (unfold f, holds_host; by rewrite Hup, Hd).
      destruct (serverlocks c !! h); lia.
    + destruct (decide (a_up t = h)) as [Heq|Hne].
      * rewrite Heq in *. rewrite lookup_insert_eq. rewrite Hn in I2.
        assert (f t = 1 ∧ f t' = 0) as [E E'].
        { unfold f, holds_host. rewrite Hup, Hd, Hd', Heq.
          by rewrite bool_decide_true by done. }
        unfold signal. lia.
      * rewrite lookup_insert_ne by done.
        assert (f t = 0 ∧ f t' = 0) as [E E'].
        { unfold f, holds_host. rewrite Hup.
          by rewrite !bool_decide_false by done. }
        destruct (serverlocks c !! h); lia.
  - by rewrite Hf, Hfa.
  - rewrite Ha. by apply Forall_insert.
  - rewrite Hf. eapply Forall_impl; [exact I5|]. intros ft. apply feed_ok_mono.
    destruct Hlocks as [[-> _]|(n & _ & -> & _)]; [done|].
    intros h. apply is_Some_insert_mono.
Qed.

Lemma step_article_Inv c i c' : Inv c → step_article c i = Some c' → Inv c'.
Proof.
  intros HI Hs. unfold step_article in Hs.
  destruct (articlethreads c !! i) as [t|] eqn:Ht; simplify_eq/=.
  pose proof (Forall_lookup_1 _ _ _ _ (inv_articles c HI) Ht) as [Hup Hpc].
  destruct (a_pc t) eqn:E; simplify_eq/=.
  - destruct (threadsAllowed c) as [|n] eqn:En; simplify_eq/=.
    eapply Inv_article_update; try done; simpl.
    + unfold holds_thread. rewrite E. simpl. lia.
    + left. by rewrite E.
  - eapply Inv_article_update; try done; simpl.
    + unfold holds_thread. by rewrite E.
    + left. by rewrite E.
  - destruct (htmlParse (a_doc t)) as [tokens|] eqn:Ep; simplify_eq/=.
    + eapply Inv_article_update; try done; simpl.
      * split; [done|]. simpl. congruence.
      * unfold holds_thread. by rewrite E.
      * left. by rewrite E.
    + eapply Inv_article_update; try done; simpl.
      * split; [done|]. simpl. split; congruence.
      * unfold holds_thread. by rewrite E.
      * left. by rewrite E.
  - eapply Inv_article_update; try done; simpl.
    + unfold holds_thread. rewrite E. simpl. unfold signal. lia.
    + left. by rewrite E.
  - eapply Inv_article_update; try done; simpl.
    + split; [done|]. simpl. eauto.
    + unfold holds_thread. by rewrite E.
    + left. by rewrite E.
  - eapply Inv_article_update; try done; simpl.
    + unfold holds_thread. rewrite E. simpl. unfold signal. lia.
    + left. by rewrite E.
  - destruct (serverlocks c !! a_up t) as [n|] eqn:En; simplify_eq/=.
    eapply Inv_article_update; try done; simpl.
    + unfold holds_thread. by rewrite E.
    + right. exists n. by rewrite E.
Qed.

(** The invariant does not read the output, the input or the program
    counter of the main thread. *)
Lemma Inv_ext c c' :
  Inv c →
  threadsAllowed c' = threadsAllowed c → feedsAllowed c' = feedsAllowed c →
  serverlocks c' = serverlocks c →
  feedthreads c' = feedthreads c → articlethreads c' = articlethreads c →
  Inv c'.
Proof.
  intros [I1 I2 I3 I4 I5] E1 E2 E3 E4 E5.
  split; rewrite ?E1, ?E2, ?E3, ?E4, ?E5; done.
Qed.

Lemma Inv_feed_update c c' i ft ft' :
  Inv c → feedthreads c !! i = Some ft →
  feedthreads c' = <[i:=ft']> (feedthreads c) →
  articlethreads c' = articlethreads c →
  threadsAllowed c' = threadsAllowed c → serverlocks c' = serverlocks c →
  feed_ok (serverlocks c) ft' →
  feedsAllowed c' + Nat.b2n (holds_feed ft')
    = feedsAllowed c + Nat.b2n (holds_feed ft) →
  Inv c'.
Proof.
  intros [I1 I2 I3 I4 I5] Ht Hf Ha Hth Hl Hok Hfa.
  split; rewrite ?Ha, ?Hth, ?Hl; try done.
  - rewrite Hf.
    pose proof (total_insert (λ x, Nat.b2n (holds_feed x)) _ _ _ ft' Ht). lia.
  - rewrite Hf. by apply Forall_insert.
Qed.

Lemma step_feed_Inv c i c' : Inv c → step_feed c i = Some c' → Inv c'.
Proof.
  intros HI Hs. unfold step_feed in Hs.
  destruct (feedthreads c !! i) as [ft|] eqn:Ht; simplify_eq/=.
  pose proof (Forall_lookup_1 _ _ _ _ (inv_feedthreads c HI) Ht) as Hok.
  unfold feed_ok in Hok.
  destruct (f_pc ft) as [| |articles|[|article rest]|article serverurl rest|] eqn:E;
    simplify_eq/=.
  - destruct (feedParse (f_feed ft).1) as [articles|] eqn:Ep; simplify_eq/=.
    + eapply Inv_feed_update; try done; simpl.
      unfold holds_feed. by rewrite E.
    + eapply Inv_feed_update; try done; simpl.
      unfold holds_feed. by rewrite E.
  - eapply Inv_feed_update; try done; simpl.
    unfold holds_feed. rewrite E. simpl. unfold signal. lia.
  - eapply Inv_feed_update; try done; simpl.
    + unfold feed_ok. simpl. eauto.
    + unfold holds_feed. rewrite E. simpl. unfold signal. lia.
  - destruct (joined i (articlethreads c)); simplify_eq/=.
    eapply Inv_feed_update; try done; simpl.
    unfold holds_feed. by rewrite E.
  - destruct HI as [I1 I2 I3 I4 I5].
    set (h := getURLServer (url article)) in *.
    assert (∀ k, is_Some (serverlocks c !! k) →
      is_Some (match serverlocks c !! h with
               | Some _ => serverlocks c
               | None => <[h:=kMaxTperS]> (serverlocks c)
               end !! k)) as Hmono.
    { intros k. destruct (serverlocks c !! h); [done|]. apply is_Some_insert_mono. }
    split; simpl; try done.
    + intros k. specialize (I2 k).
      destruct (serverlocks c !! h) as [n|] eqn:En; [done|].
      destruct (decide (h = k)) as [<-|Hne].
      * rewrite lookup_insert_eq. rewrite En in I2. lia.
      * by rewrite lookup_insert_ne.
    + erewrite total_insert_same; [done..|]. unfold holds_feed. by rewrite E.
    + apply Forall_insert.
      * eapply Forall_impl; [exact I5|]. intros ft0. by apply feed_ok_mono.
      * unfold feed_ok. simpl. split_and!; [done| |done].
        destruct (serverlocks c !! h) eqn:En; [by rewrite En|].
        rewrite lookup_insert_eq. eauto.
  - destruct (serverlocks c !! serverurl) as [[|n]|] eqn:En; simplify_eq/=.
    destruct HI as [I1 I2 I3 I4 I5].
    split; simpl.
    + rewrite total_snoc. simpl. lia.
    + intros k. specialize (I2 k). rewrite total_snoc.
      assert (∀ t, a_up t = serverurl → a_pc t = AWait →
                   Nat.b2n (holds_host k t) = Nat.b2n (bool_decide (serverurl = k)))
        as Hnew.
      { intros t <- Ea. unfold holds_host. rewrite Ea. simpl.
        by rewrite andb_true_r. }
      rewrite Hnew by done.
      destruct (decide (serverurl = k)) as [<-|Hne].
      * rewrite lookup_insert_eq. rewrite En in I2.
        rewrite bool_decide_true by done. simpl. lia.
      * rewrite lookup_insert_ne by done.
        rewrite bool_decide_false by done. simpl.
        destruct (serverlocks c !! k); lia.
    + erewrite total_insert_same; [done..|]. unfold holds_feed. by rewrite E.
    + apply Forall_app. split; [done|]. apply Forall_singleton.
      destruct Hok as (_ & _ & ->). by split.
    + apply Forall_insert.
      * eapply Forall_impl; [exact I5|]. intros ft0. apply feed_ok_mono.
        intros k. apply is_Some_insert_mono.
      * unfold feed_ok. simpl. tauto.
Qed.

Lemma step_main_Inv c c' : Inv c → step_main c = Some c' → Inv c'.
Proof.
  intros HI Hs. unfold step_main in Hs.
  destruct (mainpc c) as [exe args|uri|[|feed rest]| | |status] eqn:E;
    simplify_eq/=.
  - destruct args as [|uri [|]]; simplify_eq/=; by eapply Inv_ext.
  - destruct (feedListParse uri); simplify_eq/=; by eapply Inv_ext.
  - destruct (forallb _ _); simplify_eq/=. by eapply Inv_ext.
  - destruct (feedsAllowed c) as [|n] eqn:En; simplify_eq/=.
    destruct HI as [I1 I2 I3 I4 I5]. split; simpl; try done.
    + rewrite total_snoc. simpl. lia.
    + apply Forall_app. split; [done|]. by apply Forall_singleton.
  - destruct (queryIndex (index c) (cin c)) as [o [rest|]]; simplify_eq/=;
      by eapply Inv_ext.
Qed.

Lemma step_Inv c tid c' : Inv c → step c tid = Some c' → Inv c'.
Proof.
  destruct tid; simpl; eauto using step_main_Inv, step_feed_Inv, step_article_Inv.
Qed.

(** The invariant holds all along every run. *)
Lemma run_Inv c schedule : Inv c → Inv (run c schedule).
Proof.
  revert c. induction schedule as [|tid schedule IH]; intros c HI; [done|].
  simpl. apply IH. destruct (step c tid) eqn:E; [|done]. by eapply step_Inv.
Qed.

(** A fetch in flight holds a permit of [threadsAllowed] and a permit
    of the semaphore of its server. *)
Lemma in_flight_le_held c :
  in_flight c ≤ total (λ t, Nat.b2n (holds_thread t)) (articlethreads c).
Proof.
  apply total_le. intros t. unfold fetching, holds_thread.
  destruct (a_pc t); simpl; lia.
Qed.

Lemma in_flight_at_le_held c h :
  Inv c →
  in_flight_at h c ≤ total (λ t, Nat.b2n (holds_host h t)) (articlethreads c).
Proof.
  intros HI. apply total_le_Forall.
  eapply Forall_impl; [exact (inv_articles c HI)|].
  intros t [Hup _]. unfold fetching, holds_host. rewrite Hup.
  destruct (a_pc t); simpl; try lia.
  destruct (bool_decide _); simpl; lia.
Qed.

(** C6.  At every point of every run, whatever the schedule, the feeds
    and the articles, at most 12 fetches are in flight against any one
    server and at most 64 in all. *)
Theorem in_flight_bounded exe args input schedule h :
  in_flight_at h (run (init exe args input) schedule) ≤ 12 ∧
  in_flight (run (init exe args input) schedule) ≤ 64.
Proof.
  pose proof (run_Inv _ schedule (Inv_init exe args input)) as HI.
  set (c := run _ _) in *. split.
  - pose proof (in_flight_at_le_held c h HI) as Hle.
    pose proof (inv_hosts c HI h) as Hh. unfold kMaxTperS in Hh.
    destruct (serverlocks c !! h); lia.
  - pose proof (in_flight_le_held c) as Hle.
    pose proof (inv_threads c HI) as Hh. unfold kMaxthread in Hh. lia.
Qed.

(** *** Termination *)

Lemma step_article_measure c i c' :
  step_article c i = Some c' → measure c' < measure c.
Proof.
  intros Hs. unfold step_article in Hs.
  destruct (articlethreads c !! i) as [t|] eqn:Ht; simplify_eq/=.
  unfold measure.
  destruct (a_pc t) eqn:E; simplify_option_eq;
    repeat case_match; simplify_option_eq;
    (match goal with
     | |- context [total ?f (<[i:=?y]> ?l)] =>
         pose proof (total_insert f l i _ y Ht) as T; cbv beta in T;
         set (A := total f (<[i:=y]> l)) in *; set (B := total f l) in *
     end);
    rewrite E in T; simpl in T; lia.
Qed.

Lemma step_feed_measure c i c' :
  step_feed c i = Some c' → measure c' < measure c.
Proof.
  intros Hs. unfold step_feed in Hs.
  destruct (feedthreads c !! i) as [ft|] eqn:Ht; simplify_eq/=.
  unfold measure.
  destruct (f_pc ft) as [| |articles|[|article rest]|article serverurl rest|] eqn:E;
    simplify_eq/=;
    try (destruct (feedParse (f_feed ft).1) as [articles|] eqn:Ep);
    simplify_option_eq; repeat case_match; simplify_option_eq;
    rewrite ?total_snoc;
    (match goal with
     | |- context [total ?f (<[i:=?y]> ?l)] =>
         pose proof (total_insert f l i _ y Ht) as T;
         set (A := total f (<[i:=y]> l)) in *; set (B := total f l) in *
     end);
    unfold feed_steps, begin_steps, loop_steps in T; rewrite E, ?Ep in T;
    simpl in *; lia.
Qed.

Lemma step_main_measure c c' :
  step_main c = Some c' → measure c' < measure c.
Proof.
  intros Hs. unfold step_main in Hs. unfold measure.
  destruct (mainpc c) as [exe args|uri|[|feed rest]| | |status] eqn:E;
    simplify_eq/=.
  - destruct args as [|uri [|]]; simplify_eq/=; lia.
  - unfold feedlist_steps.
    destruct (feedListParse uri); simplify_eq/=; lia.
  - destruct (forallb _ _); simplify_eq/=. lia.
  - destruct (feedsAllowed c); simplify_eq/=.
    rewrite total_snoc. unfold feed_steps at 2. simpl. lia.
  - destruct (queryIndex (index c) (cin c)) as [o [rest|]]; simplify_eq/=; lia.
Qed.

(** Every step brings the program closer to its end: no run goes on
    for ever. *)
Lemma step_measure c tid c' : step c tid = Some c' → measure c' < measure c.
Proof.
  destruct tid; simpl;
    eauto using step_main_measure, step_feed_measure, step_article_measure.
Qed.

(** *** Progress *)

Lemma article_can_step c i t :
  Inv c → articlethreads c !! i = Some t →
  match a_pc t with
  | AWait => 0 < threadsAllowed c
  | ADone => False
  | _ => True
  end →
  is_Some (step_article c i).
Proof.
  intros HI Ht Hpc. unfold step_article. rewrite Ht. simpl.
  destruct (a_pc t) eqn:E; try done; eauto.
  - destruct (threadsAllowed c); [lia|]. simpl. eauto.
  - destruct (htmlParse (a_doc t)); eauto.
  - destruct (Inv_host_Some c i t HI Ht) as [n Hn]; [by rewrite E|].
    rewrite Hn. simpl. eauto.
Qed.

Lemma total_done_zero (f : ArticleThread → bool) ts :
  (∀ t, f t → ¬ ArticlePC_done (a_pc t)) →
  Forall (λ t, ArticlePC_done (a_pc t)) ts →
  total (λ t, Nat.b2n (f t)) ts = 0.
Proof.
  intros Hf Hd. apply total_zero. eapply Forall_impl; [exact Hd|].
  intros t Ht. destruct (f t) eqn:E; [|done].
  destruct (Hf t); [by rewrite E|done].
Qed.

Lemma feed_can_step c i ft :
  Inv c → feedthreads c !! i = Some ft →
  Forall (λ t, ArticlePC_done (a_pc t)) (articlethreads c) →
  ¬ FeedPC_done (f_pc ft) →
  is_Some (step_feed c i).
Proof.
  intros HI Ht Hd Hpc. unfold step_feed. rewrite Ht. simpl.
  pose proof (Forall_lookup_1 _ _ _ _ (inv_feedthreads c HI) Ht) as Hok.
  unfold feed_ok in Hok.
  destruct (f_pc ft) as [| |articles|[|article rest]|article serverurl rest|] eqn:E;
    try done; eauto.
  - destruct (feedParse (f_feed ft).1); eauto.
  - assert (joined i (articlethreads c) = true) as ->; [|eauto].
    unfold joined. apply forallb_forall. intros t Hin.
    rewrite Forall_forall in Hd. apply list_elem_of_In, Hd in Hin.
    destruct (ArticlePC_done (a_pc t)); [|done]. apply orb_true_r.
  - destruct Hok as (_ & [n Hn] & _). rewrite Hn. simpl.
    pose proof (inv_hosts c HI serverurl) as Hh. rewrite Hn in Hh.
    rewrite (total_done_zero (holds_host serverurl)) in Hh; [|..|done].
    + destruct n; [unfold kMaxTperS in Hh; lia|]. simpl. eauto.
    + intros t. unfold holds_host. destruct (ArticlePC_done (a_pc t)); [|done].
      rewrite andb_false_r. done.
Qed.

Lemma main_can_step c :
  Inv c →
  Forall (λ ft, FeedPC_done (f_pc ft)) (feedthreads c) →
  finished (mainpc c) = false →
  is_Some (step_main c).
Proof.
  intros HI Hd Hpc. unfold step_main.
  destruct (mainpc c) as [exe args|uri|[|feed rest]| | |status] eqn:E;
    try done; eauto.
  - destruct args as [|uri [|]]; eauto.
  - destruct (feedListParse uri); eauto.
  - assert (forallb (λ x, FeedPC_done (f_pc x)) (feedthreads c) = true) as ->;
      [|eauto].
    apply forallb_forall. intros x Hin.
    rewrite Forall_forall in Hd. apply list_elem_of_In, Hd in Hin.
    by destruct (FeedPC_done (f_pc x)).
  - pose proof (inv_feeds c HI) as Hf.
    assert (total (λ x, Nat.b2n (holds_feed x)) (feedthreads c) = 0) as Hz.
    { apply total_zero. eapply Forall_impl; [exact Hd|].
      intros ft. unfold holds_feed. by destruct (f_pc ft). }
    destruct (feedsAllowed c); [unfold kMaxfeed in Hf; lia|]. simpl. eauto.
  - destruct (queryIndex (index c) (cin c)) as [o [rest|]]; eauto.
Qed.

(** While the main thread has not left the program some thread can
    move: the crawl has no deadlock. *)
Lemma progress c :
  Inv c → finished (mainpc c) = false → ∃ tid, is_Some (step c tid).
Proof.
  intros HI Hpc.
  destruct (decide (Forall (λ t, ArticlePC_done (a_pc t)) (articlethreads c)))
    as [Ha|Ha].
  - destruct (decide (Forall (λ ft, FeedPC_done (f_pc ft)) (feedthreads c)))
      as [Hf|Hf].
    + exists TMain. by apply main_can_step.
    + apply not_Forall_Exists in Hf; [|apply _].
      apply Exists_exists in Hf as (ft & Hin & Hft).
      apply list_elem_of_lookup in Hin as [i Hi].
      exists (TFeed i). by eapply feed_can_step.
  - apply not_Forall_Exists in Ha; [|apply _].
    apply Exists_exists in Ha as (t & Hin & Ht).
    apply list_elem_of_lookup in Hin as [i Hi].
    destruct (decide (a_pc t = AWait ∧ threadsAllowed c = 0)) as [[E En]|Hne].
    + pose proof (inv_threads c HI) as Hth. rewrite En in Hth.
      destruct (total_pos (λ t, Nat.b2n (holds_thread t)) (articlethreads c))
        as (j & x & Hj & Hx); [unfold kMaxthread in Hth; lia|].
      exists (TArticle j). eapply article_can_step; [done..|].
      unfold holds_thread in Hx. destruct (a_pc x); simpl in *; try done; lia.
    + exists (TArticle i). eapply article_can_step; [done..|].
      destruct (a_pc t) eqn:E; try done.
      * destruct (threadsAllowed c); [|lia]. by destruct Hne.
      * apply Ht. simpl. by rewrite E.
Qed.

(** *** The two fatal errors of the main thread *)

(** What is closed under the steps holds all along a run. *)
Lemma run_invariant (P : Config → Prop) c schedule :
  (∀ c tid c', P c → step c tid = Some c' → P c') → P c → P (run c schedule).
Proof.
  intros HP. revert c. induction schedule as [|tid schedule IH]; intros c Hc; [done|].
  simpl. apply IH. destruct (step c tid) eqn:E; [|done]. by eapply HP.
Qed.

Lemma step_no_threads c tid :
  feedthreads c = [] → articlethreads c = [] → finished (mainpc c) = true →
  step c tid = None.
Proof.
  intros Hf Ha Hm. destruct tid as [|i|i]; simpl.
  - unfold step_main. by destruct (mainpc c).
  - unfold step_feed. by rewrite Hf.
  - unfold step_article. by rewrite Ha.
Qed.

(** C9.  When the process is started with an argument count other
    than one argument after the executable name, the first step of
    the main thread writes the error and the usage line to standard
    error and exits with status 0; no run ever reaches another state:
    no feed thread, no article thread, nothing read, nothing in the
    index, no query. *)
Theorem main_wrong_argument_count exe args input schedule :
  length args ≠ 1 →
  let usage :=
    {| feedsAllowed := kMaxfeed; threadsAllowed := kMaxthread;
       serverlocks := ∅; index := RSSIndex.empty;
       output := [ (cerr, "Error: wrong number of arguments." ++ endl);
                   (cerr, "Usage: " ++ exe ++ " <feed-url>" ++ endl) ];
       cin := input; mainpc := MExited 0%Z;
       feedthreads := []; articlethreads := [] |} in
  step (init exe args input) TMain = Some usage ∧
  (run (init exe args input) schedule = init exe args input ∨
   run (init exe args input) schedule = usage).
Proof.
  intros Hn usage. split.
  - destruct args as [|uri [|]]; simpl in *; done.
  - apply (run_invariant (λ c, c = init exe args input ∨ c = usage)); [|by left].
    intros c tid c' [->| ->] Hs.
    + destruct tid as [|i|i]; simplify_eq/=. right.
      unfold step_main in Hs.
      destruct args as [|uri [|]]; simpl in *; by simplify_eq.
    + by rewrite step_no_threads in Hs.
Qed.

(** C8.  When the feed list cannot be fetched or parsed, the main
    thread writes its two lines to standard error and exits (with
    status 0) before any feed is processed: the states of a run are
    the initial one, the one before the [parse] and the one after the
    [exit], so there is never a feed thread or an article thread,
    nothing is added to the index, and the query loop never runs. *)
Theorem feed_list_error_is_fatal exe uri input schedule :
  feedListParse uri = None →
  let c := run (init exe [uri] input) schedule in
  let aborted :=
    {| feedsAllowed := kMaxfeed; threadsAllowed := kMaxthread;
       serverlocks := ∅; index := RSSIndex.empty;
       output := [ (cerr, "Ran into trouble while pulling full RSS feed list from "
                          ++ dq ++ uri ++ dq ++ "." ++ endl);
                   (cerr, "Aborting...." ++ endl) ];
       cin := input; mainpc := MExited 0%Z;
       feedthreads := []; articlethreads := [] |} in
  run (init exe [uri] input) [TMain; TMain] = aborted ∧
  (c = init exe [uri] input ∨
   c = set_mainpc (MFeedList uri) (init exe [uri] input) ∨
   c = aborted) ∧
  feedthreads c = [] ∧ articlethreads c = [] ∧ index c = RSSIndex.empty ∧
  cin c = input ∧ (prompt ∉ output c) ∧ mainpc c ≠ MQuery.
Proof.
  intros Hp c aborted.
  assert (c = init exe [uri] input ∨
          c = set_mainpc (MFeedList uri) (init exe [uri] input) ∨
          c = aborted) as Hc.
  { apply (run_invariant (λ c, c = init exe [uri] input ∨
             c = set_mainpc (MFeedList uri) (init exe [uri] input) ∨
             c = aborted)); [|by left].
    intros c0 tid c' [->|[->| ->]] Hs.
    - destruct tid as [|i|i]; simplify_eq/=.
      unfold step_main in Hs. simplify_eq/=. by right; left.
    - destruct tid as [|i|i]; simplify_eq/=.
      unfold step_main in Hs. simpl in Hs. rewrite Hp in Hs.
      simplify_eq/=. by right; right.
    - by rewrite step_no_threads in Hs. }
  split; [|split; [exact Hc|]].
  - unfold run. simpl. unfold step_main. simpl. by rewrite Hp.
  - destruct Hc as [->|[->| ->]]; simpl; split_and!; try done.
    + by apply not_elem_of_nil.
    + by apply not_elem_of_nil.
    + intros Hin. apply elem_of_cons in Hin as [?|Hin]; [done|].
      apply elem_of_cons in Hin as [?|Hin]; [done|]. by apply elem_of_nil in Hin.
Qed.

(** *** An article that cannot be fetched *)

(** C1.  Take any state of any run and in it an article thread whose
    document cannot be fetched or parsed.  The thread is on the path
    wait, print, parse, catch, release, return; it can always move,
    except while it waits for a permit of [threadsAllowed]; each of its
    steps leaves the index, the main thread, the feed threads and all
    other article threads as they are; the permit of [threadsAllowed]
    it takes at its first step it gives back in the handler, and the
    permit of its server, taken for it by the feed thread, it gives
    back at its last step. *)
Theorem articletoTokens_parse_error exe args input schedule i t :
  let c := run (init exe args input) schedule in
  articlethreads c !! i = Some t →
  htmlParse (url (a_article t)) = None →
  (a_pc t ≠ ADone → (a_pc t = AWait → 0 < threadsAllowed c) →
   is_Some (step c (TArticle i))) ∧
  ∀ c', step c (TArticle i) = Some c' →
    index c' = index c ∧ mainpc c' = mainpc c ∧ cin c' = cin c ∧
    feedthreads c' = feedthreads c ∧ feedsAllowed c' = feedsAllowed c ∧
    length (articlethreads c') = length (articlethreads c) ∧
    (∀ j, j ≠ i → articlethreads c' !! j = articlethreads c !! j) ∧
    ∃ t', articlethreads c' !! i = Some t' ∧
      a_article t' = a_article t ∧ a_up t' = a_up t ∧
      match a_pc t with
      | AWait =>
          a_pc t' = ARun ∧ threadsAllowed c = S (threadsAllowed c') ∧
          serverlocks c' = serverlocks c
      | ARun =>
          a_pc t' = AFetch ∧ threadsAllowed c' = threadsAllowed c ∧
          serverlocks c' = serverlocks c
      | AFetch =>
          a_pc t' = ACatch ∧ threadsAllowed c' = threadsAllowed c ∧
          serverlocks c' = serverlocks c
      | ACatch =>
          a_pc t' = AHostSignal ∧ threadsAllowed c' = S (threadsAllowed c) ∧
          serverlocks c' = serverlocks c
      | AHostSignal =>
          a_pc t' = ADone ∧ threadsAllowed c' = threadsAllowed c ∧
          ∃ n, serverlocks c !! a_up t = Some n ∧
               serverlocks c' = <[a_up t := S n]> (serverlocks c)
      | AParsed _ | ASignal | ADone => False
      end.
Proof.
  intros c Ht Hp.
  pose proof (run_Inv _ schedule (Inv_init exe args input)) as HI.
  fold c in HI. clearbody c.
  pose proof (Forall_lookup_1 _ _ _ _ (inv_articles c HI) Ht) as [Hup Hpc].
  pose proof (lookup_lt_Some _ _ _ Ht) as Hlt.
  split.
  - intros Hd Hw. simpl. eapply article_can_step; [done..|].
    destruct (a_pc t); try done. by apply Hw.
  - intros c' Hs. simpl in Hs. unfold step_article in Hs. rewrite Ht in Hs.
    simpl in Hs.
    assert (∀ t', length (<[i:=t']> (articlethreads c)) = length (articlethreads c))
      as Hlen by (intros; by rewrite length_insert).
    assert (∀ t' j, j ≠ i →
              <[i:=t']> (articlethreads c) !! j = articlethreads c !! j)
      as Hother by (intros; by rewrite list_lookup_insert_ne).
    assert (∀ t', <[i:=t']> (articlethreads c) !! i = Some t')
      as Hself by (intros; by rewrite list_lookup_insert_eq).
    destruct (a_pc t) eqn:E;
      [ destruct (threadsAllowed c) as [|n] eqn:En
      | | rewrite Hpc, Hp in Hs | | rewrite Hp in Hpc | rewrite Hp in Hpc
      | destruct (serverlocks c !! a_up t) as [n|] eqn:En | ];
      simplify_eq/=; try (by destruct Hpc);
      split_and!;
      first [ done | apply Hlen | apply Hother
            | eexists; split; [apply Hself|]; simpl; eauto 10 ].
Qed.

(** *** A feed that cannot be fetched *)

(** From every state of a run the program can be brought to the point
    where the main thread has left the crawl and the query loop. *)
Lemma run_completes c :
  Inv c → ∃ schedule, finished (mainpc (run c schedule)) = true.
Proof.
  remember (measure c) as n eqn:En. revert c En.
  induction n as [n IH] using lt_wf_ind. intros c -> HI.
  destruct (finished (mainpc c)) eqn:Ef; [by exists []|].
  destruct (progress c HI Ef) as [tid [c1 Hs]].
  destruct (IH (measure c1) (step_measure _ _ _ Hs) c1 eq_refl) as [schedule Hf].
  { by eapply step_Inv. }
  exists (tid :: schedule). simpl. by rewrite Hs.
Qed.

Lemma prompt_in_queryIndex idx input : prompt ∈ (queryIndex idx input).1.
Proof.
  destruct input as [|line input]; simpl.
  - case_decide; simpl; apply list_elem_of_here.
  - case_decide; simpl; [apply list_elem_of_here|].
    destruct (queryIndex idx input). simpl. apply list_elem_of_here.
Qed.

Lemma step_all_fail c tid c' :
  Inv c → all_fail c → step c tid = Some c' → all_fail c'.
Proof.
  intros HI (Hidx & Ha & Hf & Hm) Hs. destruct tid as [|i|i]; simpl in Hs.
  - unfold step_main in Hs. unfold all_fail.
    destruct (mainpc c) as [exe args|uri|[|feed rest]| | |status] eqn:E.
    + destruct Hm as (uri & feeds & -> & Hp & Hfs). simplify_eq/=.
      split_and!; eauto.
    + destruct Hm as (feeds & Hp & Hfs). rewrite Hp in Hs. simplify_eq/=.
      split_and!; eauto.
    + destruct (forallb _ _); simplify_eq/=. done.
    + destruct (feedsAllowed c); simplify_eq/=.
      apply Forall_cons in Hm as [Hfeed Hrest].
      split_and!; try done. apply Forall_app. split; [done|].
      by apply Forall_singleton.
    + pose proof (prompt_in_queryIndex (index c) (cin c)) as Hin.
      destruct (queryIndex (index c) (cin c)) as [o [rest|]]; simplify_eq/=.
      * split_and!; try done.
        rewrite elem_of_app. right. apply list_elem_of_further.
        rewrite elem_of_app. by left.
      * split_and!; try done.
        rewrite elem_of_app. right. by apply list_elem_of_further.
    + done.
    + done.
  - unfold step_feed in Hs.
    destruct (feedthreads c !! i) as [ft|] eqn:Ht; simplify_eq/=.
    pose proof (Forall_lookup_1 _ _ _ _ (inv_feedthreads c HI) Ht) as Hok.
    pose proof (Forall_lookup_1 _ _ _ _ Hf Ht) as Hp. simpl in Hp.
    unfold feed_ok in Hok. rewrite Hp in Hok, Hs.
    destruct (f_pc ft) as [| |articles|[|article rest]|article serverurl rest|] eqn:E;
      simplify_eq/=;
      try discriminate Hok; try (by apply is_Some_None in Hok);
        try (by apply proj1, is_Some_None in Hok);
      (split_and!; try done; [by apply Forall_insert|]; simpl;
       destruct (mainpc c); try done; rewrite elem_of_app; tauto).
  - unfold step_article in Hs. rewrite Ha in Hs. done.
Qed.

Lemma run_all_fail c schedule :
  Inv c → all_fail c → all_fail (run c schedule).
Proof.
  intros HI Hall.
  apply (run_invariant (λ c, Inv c ∧ all_fail c)); [|done].
  intros c0 tid c' [? ?] Hs. split; [by eapply step_Inv|by eapply step_all_fail].
Qed.

(** C2.  Take any state of any run.  A feed thread whose feed cannot
    be fetched or parsed is on the path parse, catch, return; it is
    never blocked; its steps start no article thread and leave the
    index, the main thread and the other feed threads as they are, and
    the handler gives back the permit of [feedsAllowed].  When every
    feed of the feed list fails, the index stays empty, no article
    thread ever exists, some thread can move as long as the main
    thread has not been through the query loop, every step brings the
    end nearer, and the run can only end with the query loop entered:
    its prompt has been written. *)
Theorem feedtoTokens_parse_error exe args input schedule :
  let c := run (init exe args input) schedule in
  (∀ i ft, feedthreads c !! i = Some ft → feedParse (f_feed ft).1 = None →
     (¬ FeedPC_done (f_pc ft) → is_Some (step c (TFeed i))) ∧
     ∀ c', step c (TFeed i) = Some c' →
       articlethreads c' = articlethreads c ∧ index c' = index c ∧
       mainpc c' = mainpc c ∧ cin c' = cin c ∧
       threadsAllowed c' = threadsAllowed c ∧ serverlocks c' = serverlocks c ∧
       length (feedthreads c') = length (feedthreads c) ∧
       (∀ j, j ≠ i → feedthreads c' !! j = feedthreads c !! j) ∧
       ∃ ft', feedthreads c' !! i = Some ft' ∧ f_feed ft' = f_feed ft ∧
         match f_pc ft with
         | FBegin => f_pc ft' = FCatch ∧ feedsAllowed c' = feedsAllowed c
         | FCatch => f_pc ft' = FDone ∧ feedsAllowed c' = S (feedsAllowed c)
         | _ => False
         end) ∧
  (∀ uri feeds,
     args = [uri] → feedListParse uri = Some feeds →
     Forall (λ f, feedParse f.1 = None) feeds →
     index c = RSSIndex.empty ∧ articlethreads c = [] ∧
     (finished (mainpc c) = false → ∃ tid, is_Some (step c tid)) ∧
     (finished (mainpc c) = true → prompt ∈ output c) ∧
     (∀ tid c', step c tid = Some c' → measure c' < measure c) ∧
     ∃ schedule',
       finished (mainpc (run c schedule')) = true ∧
       prompt ∈ output (run c schedule') ∧
       index (run c schedule') = RSSIndex.empty).
Proof.
  intros c.
  pose proof (run_Inv _ schedule (Inv_init exe args input)) as HI.
  assert (∀ c0, all_fail c0 → finished (mainpc c0) = true → prompt ∈ output c0)
    as Hprompt.
  { intros c0 (_ & _ & _ & Hm) Hfin. destruct (mainpc c0); try done. by destruct Hm. }
  split.
  - fold c in HI. clearbody c. intros i ft Ht Hp.
    pose proof (Forall_lookup_1 _ _ _ _ (inv_feedthreads c HI) Ht) as Hok.
    unfold feed_ok in Hok. rewrite Hp in Hok.
    assert (∀ ft', length (<[i:=ft']> (feedthreads c)) = length (feedthreads c))
      as Hlen by (intros; by rewrite length_insert).
    assert (∀ ft' j, j ≠ i →
              <[i:=ft']> (feedthreads c) !! j = feedthreads c !! j)
      as Hother by (intros; by rewrite list_lookup_insert_ne).
    assert (∀ ft', <[i:=ft']> (feedthreads c) !! i = Some ft') as Hself.
    { intros. apply list_lookup_insert_eq. by eapply lookup_lt_Some. }
    split.
    + intros Hd. simpl. unfold step_feed. rewrite Ht. simpl. rewrite Hp.
      destruct (f_pc ft) as [| |articles|[|article rest]|article serverurl rest|];
        try done; eauto; try (by apply is_Some_None in Hok);
        by apply proj1, is_Some_None in Hok.
    + intros c' Hs. simpl in Hs. unfold step_feed in Hs. rewrite Ht in Hs.
      simpl in Hs. rewrite Hp in Hs.
      destruct (f_pc ft) as [| |articles|[|article rest]|article serverurl rest|];
        simplify_eq/=;
        try discriminate Hok; try (by apply is_Some_None in Hok);
        try (by apply proj1, is_Some_None in Hok);
        split_and!;
        first [ done | apply Hlen | apply Hother
              | eexists; split; [apply Hself|]; simpl; eauto 10 ].
  - intros uri feeds -> Hp Hfs.
    assert (all_fail c) as Hall.
    { apply run_all_fail; [apply Inv_init|]. unfold all_fail. simpl.
      split_and!; try done. eauto. }
    fold c in HI. clearbody c.
    destruct (Hall) as (Hidx & Ha & _).
    split_and!; try done.
    + by apply progress.
    + by apply Hprompt.
    + apply step_measure.
    + destruct (run_completes c HI) as [schedule' Hfin].
      exists schedule'.
      pose proof (run_all_fail c schedule' HI Hall) as Hall'.
      split_and!; [done|by apply Hprompt|by destruct Hall'].
Qed.

(** *** What is displayed does not flow into the state *)

Lemma fmap_hide_thread_idemp (ts : list ArticleThread) :
  hide_thread <$> (hide_thread <$> ts) = hide_thread <$> ts.
Proof. rewrite <- list_fmap_compose. apply list_fmap_ext. by intros ? []. Qed.

Lemma hide_hide c : hide (hide c) = hide c.
Proof. unfold hide. simpl. by rewrite fmap_hide_thread_idemp. Qed.

Lemma joined_hide i ts : joined i (hide_thread <$> ts) = joined i ts.
Proof.
  unfold joined. induction ts as [|t ts IH]; [done|].
  rewrite fmap_cons. cbn [forallb]. by rewrite IH.
Qed.

End CrawlFacts.

Section Display.
Context (X1 X2 : Externals) (Hnet : same_network X1 X2).

Local Ltac hide_done :=
  simpl; unfold hide; simpl;
  rewrite ?fmap_app, ?list_fmap_insert, ?fmap_hide_thread_idemp; done.

Lemma queryIndex_same_network idx input :
  (queryIndex (H := X1) idx input).2 = (queryIndex (H := X2) idx input).2.
Proof.
  destruct Hnet as (Ht & _).
  induction input as [|line input IH]; simpl; rewrite Ht.
  - by case_decide.
  - case_decide; [done|].
    destruct (queryIndex (H := X1) idx input), (queryIndex (H := X2) idx input).
    done.
Qed.

Lemma step_main_hide c :
  hide <$> step_main (H := X1) c = hide <$> step_main (H := X2) (hide c).
Proof.
  destruct Hnet as (Ht & Hs & Hl & Hf & Hh).
  unfold step_main. simpl.
  destruct (mainpc c) as [exe args|uri|[|feed rest]| | |status]; simpl; try done.
  - destruct args as [|uri [|]]; hide_done.
  - rewrite Hl. destruct (@feedListParse X2 uri); hide_done.
  - destruct (forallb _ _); hide_done.
  - destruct (feedsAllowed c); hide_done.
  - pose proof (queryIndex_same_network (index c) (cin c)) as Hq.
    destruct (queryIndex (H := X1) (index c) (cin c)) as [o1 e1],
             (queryIndex (H := X2) (index c) (cin c)) as [o2 e2].
    simpl in Hq. subst e2. destruct e1; hide_done.
Qed.

Lemma step_feed_hide c i :
  hide <$> step_feed (H := X1) c i = hide <$> step_feed (H := X2) (hide c) i.
Proof.
  destruct Hnet as (Ht & Hs & Hl & Hf & Hh).
  unfold step_feed. simpl.
  destruct (feedthreads c !! i) as [ft|]; simpl; [|done].
  destruct (f_pc ft) as [| |articles|[|article rest]|article serverurl rest|];
    simpl; try done; try hide_done.
  - rewrite Hf. destruct (@feedParse X2 (f_feed ft).1); hide_done.
  - rewrite joined_hide. destruct (joined i (articlethreads c)); hide_done.
  - rewrite Hs. hide_done.
  - destruct (serverlocks c !! serverurl) as [[|n]|]; hide_done.
Qed.

Lemma step_article_hide c i :
  hide <$> step_article (H := X1) c i = hide <$> step_article (H := X2) (hide c) i.
Proof.
  destruct Hnet as (Ht & Hs & Hl & Hf & Hh).
  unfold step_article. simpl. rewrite list_lookup_fmap.
  destruct (articlethreads c !! i) as [t|]; simpl; [|done].
  destruct (a_pc t) eqn:E; simpl; try done; try hide_done.
  - destruct (threadsAllowed c); hide_done.
  - rewrite Hh. destruct (@htmlParse X2 (a_doc t)); hide_done.
  - destruct (serverlocks c !! a_up t); hide_done.
Qed.

Lemma step_hide c tid :
  hide <$> step (H := X1) c tid = hide <$> step (H := X2) (hide c) tid.
Proof.
  destruct tid; simpl; auto using step_main_hide, step_feed_hide, step_article_hide.
Qed.

End Display.

Section DisplayRuns.

Lemma same_network_refl X : same_network X X.
Proof. by split_and!. Qed.

(** Up to what is displayed, a run is the same in two worlds that
    differ only in how they shorten what is displayed. *)
Lemma run_hide schedule :
  ∀ X1 X2 c, same_network X1 X2 →
    hide (run (H := X1) c schedule) = hide (run (H := X2) (hide c) schedule).
Proof.
  induction schedule as [|tid schedule IH]; intros X1 X2 c Hnet; simpl.
  - by rewrite hide_hide.
  - pose proof (step_hide X1 X2 Hnet c tid) as Hs.
    set (c1 := default c (step (H := X1) c tid)).
    set (c2 := default (hide c) (step (H := X2) (hide c) tid)).
    assert (hide c1 = hide c2) as Heq.
    { unfold c1, c2.
      destruct (step (H := X1) c tid), (step (H := X2) (hide c) tid);
        simpl in *; [congruence|discriminate..|by rewrite hide_hide]. }
    transitivity (hide (run (H := X2) (hide c1) schedule)); [by apply IH|].
    rewrite Heq. symmetry. apply IH, same_network_refl.
Qed.

Lemma run_same_network X1 X2 c schedule :
  same_network X1 X2 →
  hide (run (H := X1) c schedule) = hide (run (H := X2) c schedule).
Proof.
  intros Hnet. rewrite (run_hide schedule X1 X2 c Hnet).
  by rewrite (run_hide schedule X2 X2 c (same_network_refl X2)).
Qed.

End DisplayRuns.

Section Stored.
Context `{Externals}.
Implicit Types (c : Config) (t : ArticleThread) (ft : FeedThread).

(** *** What the index stores *)

Lemma provenance_init exe args input : provenance (init exe args input).
Proof. split_and!; simpl; try done. intros token e Hin. by apply elem_of_nil in Hin. Qed.

Lemma step_provenance c tid c' :
  Inv c → provenance c → step c tid = Some c' → provenance c'.
Proof.
  intros HI (Ha & Hf & Hidx) Hs. destruct tid as [|i|i]; simpl in Hs.
  - unfold step_main in Hs.
    destruct (mainpc c) as [exe args|uri|[|feed rest]| | |status] eqn:E;
      repeat case_match; simplify_option_eq; split_and!; try done.
    apply Forall_app. split; [done|]. by apply Forall_singleton.
  - unfold step_feed in Hs.
    destruct (feedthreads c !! i) as [ft|] eqn:Ht; simplify_eq/=.
    pose proof (Forall_lookup_1 _ _ _ _ Hf Ht) as Hft. simpl in Hft.
    destruct (f_pc ft) as [| |articles|[|article rest]|article serverurl rest|] eqn:E;
      [ destruct (feedParse (f_feed ft).1) as [articles|] eqn:Ep | .. ];
      repeat case_match; simplify_option_eq; split_and!; try done;
      try (apply Forall_insert; [done|]; simpl; try done).
    + apply Forall_forall. intros a Hin. by exists (f_feed ft).1, articles.
    + by apply Forall_cons in Hft.
    + by apply Forall_cons in Hft.
    + apply Forall_app. split; [done|]. apply Forall_singleton. by destruct Hft.
    + by destruct Hft.
  - unfold step_article in Hs.
    destruct (articlethreads c !! i) as [t|] eqn:Ht; simplify_eq/=.
    pose proof (Forall_lookup_1 _ _ _ _ Ha Ht) as Hta. simpl in Hta.
    destruct (a_pc t) eqn:E; repeat case_match; simplify_option_eq;
      split_and!; try done; try (by apply Forall_insert).
    intros token e [Hin|(e' & Hin & <-)]%elem_of_entries_add.
    + by rewrite Hin.
    + by eapply Hidx.
Qed.

Lemma run_provenance exe args input schedule :
  provenance (run (init exe args input) schedule).
Proof.
  apply (run_invariant (λ c, Inv c ∧ provenance c)).
  - intros c tid c' [? ?] Hs.
    split; [by eapply step_Inv|by eapply step_provenance].
  - split; [apply Inv_init|apply provenance_init].
Qed.

Lemma step_main_index c c' : step_main c = Some c' → index c' = index c.
Proof.
  unfold step_main. intros Hs.
  destruct (mainpc c) as [exe args|uri|[|feed rest]| | |status];
    repeat case_match; by simplify_option_eq.
Qed.

(** C10.  Whatever [shouldTruncate] and [truncate] do, at every point
    of every run the articles the index returns are articles as the
    feeds delivered them; the step that adds a fetched and parsed
    article passes to [add] the article the thread was given, which is
    one the feeds delivered, with the tokens of its document; the
    steps of the main thread, the query loop among them, leave the
    index as it is; and with any other two functions in the place of
    [shouldTruncate] and [truncate] the same schedule leads to the same
    state, the index included, up to the output and the local copies
    [title] and [url] of the article threads. *)
Theorem index_holds_original_articles exe args input schedule :
  let c := run (init exe args input) schedule in
  (∀ token e, e ∈ RSSIndex.getMatchingArticles (index c) token → delivered e.1) ∧
  (∀ i t tokens c',
     articlethreads c !! i = Some t → a_pc t = AParsed tokens →
     step c (TArticle i) = Some c' →
     delivered (a_article t) ∧
     htmlParse (url (a_article t)) = Some tokens ∧
     index c' = RSSIndex.add (a_article t) tokens (index c)) ∧
  (∀ c', step c TMain = Some c' → index c' = index c) ∧
  (∀ should cut,
     hide (run (H := with_truncation H should cut) (init exe args input) schedule)
     = hide c).
Proof.
  intros c.
  pose proof (run_Inv _ schedule (Inv_init exe args input)) as HI.
  pose proof (run_provenance exe args input schedule) as (Ha & Hf & Hidx).
  assert (∀ should cut,
            hide (run (H := with_truncation H should cut) (init exe args input) schedule)
            = hide c) as Hdisplay.
  { intros should cut. apply run_same_network. by split_and!. }
  fold c in HI, Ha, Hf, Hidx. clearbody c. split_and!.
  - intros token e Hin. apply (Hidx token).
    unfold RSSIndex.getMatchingArticles in Hin.
    by rewrite sort_desc_Permutation in Hin.
  - intros i t tokens c' Ht E Hs.
    pose proof (Forall_lookup_1 _ _ _ _ (inv_articles c HI) Ht) as [_ Hpc].
    pose proof (Forall_lookup_1 _ _ _ _ Ha Ht) as Hd. simpl in Hd.
    rewrite E in Hpc. simpl in Hs. unfold step_article in Hs.
    rewrite Ht in Hs. simpl in Hs. rewrite E in Hs. by simplify_eq/=.
  - intros c'. apply step_main_index.
  - exact Hdisplay.
Qed.

End Stored.

(** ** The program at work *)

Section Examples.
Local Existing Instance demo.

(** The whole run of the small world: what is left when the process
    has exited. *)
Example demo_run :
  let c := run (init "news" ["feeds.xml"] demo_input) demo_schedule in
  mainpc c = MExited 0%Z ∧ cin c = ["unread"] ∧
  feedsAllowed c = 8 ∧ threadsAllowed c = 64 ∧
  serverlocks c !! "a.com" = Some 12 ∧ serverlocks c !! "b.com" = Some 12 ∧
  RSSIndex.getMatchingArticles (index c) "go" = [(demo_a, 1%Z); (demo_b, 1%Z)] ∧
  RSSIndex.getMatchingArticles (index c) "rust" = [(demo_a, 2%Z)] ∧
  length (output c) = 32.
Proof. vm_compute. done. Qed.

(** The title is cut in the progress line, not in the index. *)
Example demo_truncation :
  let c := run (init "news" ["feeds.xml"] demo_input) demo_schedule in
  output c !! 1 = Some (cout, "  Parsing " ++ dq ++ "A long ..." ++ dq ++ endl) ∧
  fst <$> RSSIndex.getMatchingArticles (index c) "rust" =
    [ {| url := "a.com/1"; title := "A long title that is cut" |} ].
Proof. vm_compute. done. Qed.

(** Two fetches in flight against one server. *)
Example demo_in_flight :
  let c := run (init "news" ["feeds.xml"] demo_input) demo_overlap in
  in_flight_at "b.com" c = 2 ∧ in_flight c = 2 ∧
  threadsAllowed c = 62 ∧ serverlocks c !! "b.com" = Some 10.
Proof. vm_compute. done. Qed.

End Examples.

(** ** The theorems at concrete inputs *)

Lemma getMatchingArticles_nonincreasing_witness :
  RSSIndex.getMatchingArticles demo_index "go" !! 0 = Some (demo_b, 2%Z) ∧
  RSSIndex.getMatchingArticles demo_index "go" !! 1 = Some (demo_a, 1%Z) ∧
  (1 ≤ 2)%Z.
Proof.
  split; [reflexivity|]. split; [reflexivity|].
  apply (getMatchingArticles_nonincreasing demo_index "go" 0 (demo_b, 2%Z) (demo_a, 1%Z));
    reflexivity.
Defined.

Lemma report_display_cap_witness :
  (15 < length demo_matches ∧
   report (H := demo) "go" demo_matches !! 0
     = Some (cout, "That term appears in 16 articles.  ") ∧
   report (H := demo) "go" demo_matches !! 2
     = Some (cout, "   1.) " ++ dq ++ "t1" ++ dq ++ " [appears 16 times]." ++ endl) ∧
   report (H := demo) "go" demo_matches !! 3
     = Some (cout, "       " ++ dq ++ "u1" ++ dq ++ endl) ∧
   report (H := demo) "go" demo_matches !! 30
     = Some (cout, "  15.) " ++ dq ++ "t15" ++ dq ++ " [appears 2 times]." ++ endl) ∧
   report (H := demo) "go" demo_matches !! 32 = None) ∧
  (0 < length (drop 13 demo_matches) ≤ 15 ∧
   report (H := demo) "go" (drop 13 demo_matches) =
     [ (cout, "That term appears in 3 articles.  ");
       (cout, "Here they are:" ++ endl);
       (cout, "   1.) " ++ dq ++ "t14" ++ dq ++ " [appears 3 times]." ++ endl);
       (cout, "       " ++ dq ++ "u14" ++ dq ++ endl);
       (cout, "   2.) " ++ dq ++ "t15" ++ dq ++ " [appears 2 times]." ++ endl);
       (cout, "       " ++ dq ++ "u15" ++ dq ++ endl);
       (cout, "   3.) " ++ dq ++ "t16" ++ dq ++ " [appears 1 time]." ++ endl);
       (cout, "       " ++ dq ++ "u16" ++ dq ++ endl) ]).
Proof.
  pose proof (report_display_cap (H := demo) "go" demo_matches) as (W & _ & _).
  pose proof (report_display_cap (H := demo) "go" (drop 13 demo_matches))
    as (_ & W' & _).
  split.
  - assert (15 < length demo_matches) as Hn by (vm_compute; lia).
    destruct (W Hn) as (Hr & _ & _). split; [exact Hn|].
    rewrite Hr. vm_compute. repeat split; reflexivity.
  - assert (0 < length (drop 13 demo_matches) ≤ 15) as Hn by (vm_compute; lia).
    split; [exact Hn|]. rewrite (W' Hn). vm_compute. reflexivity.
Defined.

Lemma queryIndex_ends_at_empty_witness :
  Forall (λ l, demo_trim l ≠ "") ["  go "; "rust"; "python"] ∧
  demo_trim " " = "" ∧
  (queryIndex (H := demo) demo_index demo_input).2 = Some ["unread"] ∧
  length (queryIndex (H := demo) demo_index demo_input).1 = 15.
Proof.
  assert (Forall (λ l, demo_trim l ≠ "") ["  go "; "rust"; "python"]) as Hb
    by (repeat constructor; vm_compute; discriminate).
  assert (demo_trim " " = "") as Hl by reflexivity.
  split; [exact Hb|]. split; [exact Hl|].
  pose proof (queryIndex_ends_at_empty (H := demo) demo_index
                ["  go "; "rust"; "python"] " " ["unread"] Hb Hl) as W.
  change (["  go "; "rust"; "python"] ++ [" "; "unread"])%list with demo_input in W.
  rewrite W. split; [reflexivity|]. vm_compute. reflexivity.
Defined.

Lemma main_wrong_argument_count_witness :
  length ["one"; "two"] ≠ 1 ∧
  mainpc <$> step (H := demo) (init "news" ["one"; "two"] demo_input) TMain
    = Some (MExited 0%Z).
Proof.
  assert (length ["one"; "two"] ≠ 1) as Hn by (simpl; lia).
  split; [exact Hn|].
  destruct (main_wrong_argument_count (H := demo) "news" ["one"; "two"]
              demo_input [] Hn) as [-> _].
  reflexivity.
Defined.

Lemma feed_list_error_is_fatal_witness :
  feedListParse (Externals := demo) "nowhere.xml" = None ∧
  feedthreads (run (H := demo) (init "news" ["nowhere.xml"] demo_input) demo_schedule) = [] ∧
  index (run (H := demo) (init "news" ["nowhere.xml"] demo_input) demo_schedule)
    = RSSIndex.empty.
Proof.
  assert (feedListParse (Externals := demo) "nowhere.xml" = None) as Hp by reflexivity.
  split; [exact Hp|].
  destruct (feed_list_error_is_fatal (H := demo) "news" "nowhere.xml"
              demo_input demo_schedule Hp) as (_ & _ & Hf & _ & Hi & _).
  split; [exact Hf|exact Hi].
Defined.

Lemma articletoTokens_parse_error_witness :
  let c := run (H := demo) (init "news" ["feeds.xml"] demo_input)
             (take 27 demo_schedule) in
  let t := {| a_article := demo_x; a_up := "b.com"; a_parent := 1;
              a_title := ""; a_url := ""; a_doc := ""; a_pc := AWait |} in
  articlethreads c !! 2 = Some t ∧
  htmlParse (Externals := demo) (url (a_article t)) = None ∧
  is_Some (step (H := demo) c (TArticle 2)).
Proof.
  intros c t.
  assert (articlethreads c !! 2 = Some t) as Ht by (vm_compute; reflexivity).
  assert (htmlParse (Externals := demo) (url (a_article t)) = None) as Hp
    by reflexivity.
  split; [exact Ht|]. split; [exact Hp|].
  apply (articletoTokens_parse_error (H := demo) "news" ["feeds.xml"] demo_input
           (take 27 demo_schedule) 2 t Ht Hp).
  - simpl. discriminate.
  - intros _. vm_compute. lia.
Defined.

Lemma feedtoTokens_parse_error_witness :
  (let c := run (H := demo) (init "news" ["feeds.xml"] demo_input)
              (take 34 demo_schedule) in
   let ft := {| f_feed := ("feedC", "Feed C"); f_pc := FBegin |} in
   feedthreads c !! 2 = Some ft ∧
   feedParse (Externals := demo) (f_feed ft).1 = None ∧
   is_Some (step (H := demo) c (TFeed 2))) ∧
  (let feeds := [("feedC", "Feed C"); ("feedD", "Feed D")] in
   feedListParse (Externals := demo) "dead.xml" = Some feeds ∧
   Forall (λ f, feedParse (Externals := demo) f.1 = None) feeds ∧
   index (run (H := demo) (init "news" ["dead.xml"] demo_input) [TMain; TMain; TMain])
     = RSSIndex.empty).
Proof.
  split.
  - intros c ft.
    assert (feedthreads c !! 2 = Some ft) as Ht by (vm_compute; reflexivity).
    assert (feedParse (Externals := demo) (f_feed ft).1 = None) as Hp by reflexivity.
    split; [exact Ht|]. split; [exact Hp|].
    destruct (feedtoTokens_parse_error (H := demo) "news" ["feeds.xml"] demo_input
                (take 34 demo_schedule)) as [W _].
    apply (W 2 ft Ht Hp). simpl. intros [].
  - intros feeds.
    assert (feedListParse (Externals := demo) "dead.xml" = Some feeds) as Hl
      by reflexivity.
    assert (Forall (λ f, feedParse (Externals := demo) f.1 = None) feeds) as Hf
      by (repeat constructor).
    split; [exact Hl|]. split; [exact Hf|].
    destruct (feedtoTokens_parse_error (H := demo) "news" ["dead.xml"] demo_input
                [TMain; TMain; TMain]) as [_ W].
    apply (W "dead.xml" feeds eq_refl Hl Hf).
Defined.

Lemma index_holds_original_articles_witness :
  (let c := run (H := demo) (init "news" ["feeds.xml"] demo_input) demo_schedule in
   (demo_a, 2%Z) ∈ RSSIndex.getMatchingArticles (index c) "rust" ∧
   delivered (H := demo) demo_a) ∧
  (let c := run (H := demo) (init "news" ["feeds.xml"] demo_input)
              (take 10 demo_schedule) in
   let t := {| a_article := demo_a; a_up := "a.com"; a_parent := 0;
               a_title := "A long ..."; a_url := "a.com/1"; a_doc := "a.com/1";
               a_pc := AParsed ["rust"; "rust"; "go"] |} in
   articlethreads c !! 0 = Some t ∧
   ∃ c', step (H := demo) c (TArticle 0) = Some c' ∧
         index c' = RSSIndex.add demo_a ["rust"; "rust"; "go"] (index c)).
Proof.
  split.
  - intros c.
    assert ((demo_a, 2%Z) ∈ RSSIndex.getMatchingArticles (index c) "rust") as Hin.
    { replace (RSSIndex.getMatchingArticles (index c) "rust")
        with [(demo_a, 2%Z)] by (vm_compute; reflexivity).
      apply list_elem_of_here. }
    split; [exact Hin|].
    destruct (index_holds_original_articles (H := demo) "news" ["feeds.xml"]
                demo_input demo_schedule) as [W _].
    apply (W "rust" (demo_a, 2%Z) Hin).
  - intros c t.
    assert (articlethreads c !! 0 = Some t) as Ht by (vm_compute; reflexivity).
    split; [exact Ht|].
    destruct (step (H := demo) c (TArticle 0)) as [c'|] eqn:Hs;
      [|vm_compute in Hs; discriminate].
    exists c'. split; [reflexivity|].
    destruct (index_holds_original_articles (H := demo) "news" ["feeds.xml"]
                demo_input (take 10 demo_schedule)) as (_ & W & _).
    apply (W 0 t ["rust"; "rust"; "go"] c' Ht eq_refl Hs).
Defined.

(** * Further properties *)

(** ** The tree of threads *)

Section ShapeFacts.
Context `{Externals}.
Implicit Types (c : Config) (t : ArticleThread) (ft : FeedThread).

Lemma children_app i (l k : list ArticleThread) :
  children i (l ++ k) = (children i l ++ children i k)%list.
Proof. apply filter_app. Qed.

Lemma children_insert_articles i (l : list ArticleThread) j t t' :
  l !! j = Some t → a_parent t' = a_parent t → a_article t' = a_article t →
  a_article <$> children i (<[j:=t']> l) = a_article <$> children i l.
Proof.
  unfold children. revert j.
  induction l as [|x l IH]; intros [|j] Hj Hp Ha; simplify_eq/=.
  - rewrite !filter_cons, Hp. case_decide; [|done]. by rewrite !fmap_cons, Ha.
  - rewrite !filter_cons. case_decide; [|by eapply IH].
    rewrite !fmap_cons. f_equal. by eapply IH.
Qed.

Lemma children_none i (l : list ArticleThread) :
  Forall (λ t, a_parent t ≠ i) l → children i l = [].
Proof.
  unfold children. induction 1 as [|x l Hx _ IH]; [done|].
  rewrite filter_cons. by rewrite decide_False.
Qed.

Lemma joined_Forall i (l : list ArticleThread) :
  joined i l = true ↔ Forall (λ t, a_parent t = i → ArticlePC_done (a_pc t)) l.
Proof.
  unfold joined. induction l as [|x l IH]; simpl; [by split|].
  rewrite Forall_cons, <- IH, andb_true_iff. f_equiv.
  rewrite orb_true_iff, bool_decide_eq_true.
  destruct (ArticlePC_done (a_pc x)); simpl.
  - split; [done|]. by right.
  - split; [intros [?|?]; done|].
    intros Hd. left. intros E. by apply Hd in E.
Qed.

Lemma Shape_init exe args input : Shape args (init exe args input).
Proof. split; simpl; try done. Qed.

Lemma Shape_article_update args c c' i t t' :
  Shape args c → articlethreads c !! i = Some t →
  articlethreads c' = <[i:=t']> (articlethreads c) →
  feedthreads c' = feedthreads c → mainpc c' = mainpc c →
  a_parent t' = a_parent t → a_article t' = a_article t →
  ¬ ArticlePC_done (a_pc t) →
  Shape args c'.
Proof.
  intros [S1 S2 S3 S4] Ht Ha Hf Hm Hp Hart Hnd. split.
  - unfold launch_ok. by rewrite Hm, Hf.
  - intros i0 ft. rewrite Hf, Ha. intros Hft. unfold fanout_ok.
    rewrite (children_insert_articles _ _ _ t) by done. by apply S2.
  - rewrite Hf, Ha. apply Forall_insert; [done|].
    rewrite Hp. exact (Forall_lookup_1 _ _ _ _ S3 Ht).
  - intros i0 ft. rewrite Hf, Ha. intros Hft Hd.
    pose proof (S4 i0 ft Hft Hd) as Hall.
    apply Forall_insert; [done|]. rewrite Hp. intros E.
    destruct Hnd. exact (Forall_lookup_1 _ _ _ _ Hall Ht E).
Qed.

Lemma step_article_Shape args c i c' :
  Shape args c → step_article c i = Some c' → Shape args c'.
Proof.
  intros HS Hs. unfold step_article in Hs.
  destruct (articlethreads c !! i) as [t|] eqn:Ht; simplify_eq/=.
  destruct (a_pc t) eqn:E; repeat case_match; simplify_option_eq;
    (eapply Shape_article_update; [done..|]; rewrite E; simpl; tauto).
Qed.

Lemma Shape_feed_update args c c' i ft ft' :
  Shape args c → feedthreads c !! i = Some ft →
  feedthreads c' = <[i:=ft']> (feedthreads c) →
  articlethreads c' = articlethreads c → mainpc c' = mainpc c →
  f_feed ft' = f_feed ft →
  fanout_ok (articlethreads c) i ft' →
  (FeedPC_done (f_pc ft') →
   Forall (λ t, a_parent t = i → ArticlePC_done (a_pc t)) (articlethreads c)) →
  ¬ FeedPC_done (f_pc ft) →
  Shape args c'.
Proof.
  intros [S1 S2 S3 S4] Ht Hf Ha Hm Hfeed Hfan Hjoin Hnd.
  pose proof (lookup_lt_Some _ _ _ Ht) as Hlt.
  assert (f_feed <$> <[i:=ft']> (feedthreads c) = f_feed <$> feedthreads c) as Hsame.
  { rewrite list_fmap_insert, Hfeed. apply list_insert_id.
    by rewrite list_lookup_fmap, Ht. }
  split.
  - unfold launch_ok in *. rewrite Hm, Hf.
    destruct (mainpc c) as [exe a|uri|rest| | |status].
    + destruct S1 as [_ E]. by rewrite E in Ht.
    + destruct S1 as [_ E]. by rewrite E in Ht.
    + by rewrite Hsame.
    + destruct S1 as [_ Hd]. destruct Hnd. exact (Forall_lookup_1 _ _ _ _ Hd Ht).
    + destruct S1 as [_ Hd]. destruct Hnd. exact (Forall_lookup_1 _ _ _ _ Hd Ht).
    + destruct S1 as [_ Hd]. destruct Hnd. exact (Forall_lookup_1 _ _ _ _ Hd Ht).
  - intros i0 ft0. rewrite Hf, Ha. destruct (decide (i0 = i)) as [->|Hne].
    + rewrite list_lookup_insert_eq by done. by intros [= <-].
    + rewrite list_lookup_insert_ne by done. apply S2.
  - rewrite Hf, Ha, length_insert. done.
  - intros i0 ft0. rewrite Hf, Ha. destruct (decide (i0 = i)) as [->|Hne].
    + rewrite list_lookup_insert_eq by done. by intros [= <-].
    + rewrite list_lookup_insert_ne by done. apply S4.
Qed.

Lemma step_feed_Shape args c i c' :
  Inv c → Shape args c → step_feed c i = Some c' → Shape args c'.
Proof.
  intros HI HS Hs. unfold step_feed in Hs.
  destruct (feedthreads c !! i) as [ft|] eqn:Ht; simplify_eq/=.
  pose proof (shape_fanout args c HS i ft Ht) as Hfan. unfold fanout_ok in Hfan.
  pose proof (Forall_lookup_1 _ _ _ _ (inv_feedthreads c HI) Ht) as Hok.
  unfold feed_ok in Hok.
  destruct (f_pc ft) as [| |articles|[|article rest]|article serverurl rest|] eqn:E;
    simplify_eq/=.
  - apply app_nil in Hfan as [Hch _].
    destruct (feedParse (f_feed ft).1) as [articles|] eqn:Ep; simplify_eq/=.
    + eapply Shape_feed_update; try done; simpl; [|rewrite E; simpl; tauto].
      unfold fanout_ok. simpl. by rewrite Hch, Ep.
    + eapply Shape_feed_update; try done; simpl; [|rewrite E; simpl; tauto].
      unfold fanout_ok. simpl. by rewrite Hch, Ep.
  - rewrite app_nil_r, Hok in Hfan. simpl in Hfan.
    apply fmap_nil_inv in Hfan.
    eapply Shape_feed_update; try done; simpl.
    + unfold fanout_ok. simpl. by rewrite Hfan, Hok.
    + intros _. apply Forall_forall. intros t Hin Hp.
      assert (t ∈ children i (articlethreads c)) as Hc
        by (by apply list_elem_of_filter).
      rewrite Hfan in Hc. by apply elem_of_nil in Hc.
    + rewrite E. simpl. tauto.
  - eapply Shape_feed_update; try done; simpl. rewrite E. simpl. tauto.
  - destruct (joined i (articlethreads c)) eqn:Ej; simplify_eq/=.
    eapply Shape_feed_update; try done; simpl.
    + intros _. by apply joined_Forall.
    + rewrite E. simpl. tauto.
  - eapply Shape_feed_update; try done; simpl. rewrite E. simpl. tauto.
  - destruct (serverlocks c !! serverurl) as [[|n]|] eqn:En; simplify_eq/=.
    destruct HS as [S1 S2 S3 S4].
    pose proof (lookup_lt_Some _ _ _ Ht) as Hlt.
    assert (f_feed <$> <[i:=set_f_pc (FLoop rest) ft]> (feedthreads c)
            = f_feed <$> feedthreads c) as Hsame.
    { rewrite list_fmap_insert. simpl. apply list_insert_id.
      by rewrite list_lookup_fmap, Ht. }
    split; simpl.
    + unfold launch_ok in *. simpl.
      destruct (mainpc c) as [exe a|uri|rest0| | |status].
      * destruct S1 as [_ E0]. by rewrite E0 in Ht.
      * destruct S1 as [_ E0]. by rewrite E0 in Ht.
      * by rewrite Hsame.
      * destruct S1 as [_ Hd]. pose proof (Forall_lookup_1 _ _ _ _ Hd Ht) as Hx.
        simpl in Hx. by rewrite E in Hx.
      * destruct S1 as [_ Hd]. pose proof (Forall_lookup_1 _ _ _ _ Hd Ht) as Hx.
        simpl in Hx. by rewrite E in Hx.
      * destruct S1 as [_ Hd]. pose proof (Forall_lookup_1 _ _ _ _ Hd Ht) as Hx.
        simpl in Hx. by rewrite E in Hx.
    + intros i0 ft0 Hft0. unfold fanout_ok. rewrite children_app.
      unfold children at 2. rewrite filter_cons, filter_nil. simpl.
      revert Hft0. destruct (decide (i0 = i)) as [->|Hne].
      * rewrite list_lookup_insert_eq by done. intros [= <-].
        simpl. rewrite decide_True by done.
        rewrite fmap_app, <- app_assoc. simpl. done.
      * rewrite list_lookup_insert_ne by done. intros Hft0.
        rewrite decide_False by done. rewrite app_nil_r. by apply S2.
    + rewrite length_insert. apply Forall_app. split; [done|].
      by apply Forall_singleton.
    + intros i0 ft0. destruct (decide (i0 = i)) as [->|Hne].
      * rewrite list_lookup_insert_eq by done. by intros [= <-].
      * rewrite list_lookup_insert_ne by done. intros Hft0 Hd.
        apply Forall_app. split; [by eapply S4|].
        apply Forall_singleton. simpl. intros E0. by destruct Hne.
Qed.

Lemma step_main_Shape args c c' :
  Shape args c → step_main c = Some c' → Shape args c'.
Proof.
  intros [S1 S2 S3 S4] Hs. unfold step_main in Hs. unfold launch_ok in S1.
  destruct (mainpc c) as [exe a|uri|[|feed rest]| | |status] eqn:E.
  - destruct S1 as [-> Hnil].
    destruct args as [|uri [|]]; simplify_eq/=;
      (split; simpl; try done; unfold launch_ok; simpl; rewrite ?Hnil;
       split; done).
  - destruct S1 as [-> Hnil].
    destruct (feedListParse uri) as [all|] eqn:Ep; simplify_eq/=;
      (split; simpl; try done; unfold launch_ok; simpl; rewrite ?Hnil).
    + eauto.
    + split; [|done]. intros uri0 all [= <-] Hall. congruence.
  - destruct (forallb _ _) eqn:Ef; simplify_eq/=.
    split; simpl; try done. unfold launch_ok. simpl.
    destruct S1 as (uri & all & -> & Hp & Hall). rewrite app_nil_r in Hall.
    split; [eauto|].
    apply Forall_forall. intros ft Hin.
    rewrite forallb_forall in Ef. apply list_elem_of_In, Ef in Hin.
    by destruct (FeedPC_done (f_pc ft)).
  - destruct (feedsAllowed c) as [|n]; simplify_eq/=.
    destruct S1 as (uri & all & -> & Hp & Hall).
    split; simpl.
    + unfold launch_ok. simpl. exists uri, all. split_and!; try done.
      rewrite fmap_app, <- app_assoc. done.
    + intros i ft Hft. apply lookup_app_Some in Hft as [Hft|[Hge Hft]]; [by apply S2|].
      apply list_lookup_singleton_Some in Hft as [Hi <-].
      unfold fanout_ok. simpl. rewrite app_nil_r.
      rewrite children_none; [done|].
      eapply Forall_impl; [exact S3|]. intros t Hlt. simpl in Hlt. lia.
    + rewrite length_app. simpl. eapply Forall_impl; [exact S3|].
      intros t Hlt. simpl in Hlt. lia.
    + intros i ft Hft Hd. apply lookup_app_Some in Hft as [Hft|[Hge Hft]]; [by eapply S4|].
      apply list_lookup_singleton_Some in Hft as [Hi <-]. done.
  - destruct S1 as [(uri & all & -> & Hp & Hall) Hd].
    destruct (queryIndex (index c) (cin c)) as [o [rest|]]; simplify_eq/=;
      (split; simpl; try done; unfold launch_ok; simpl; split; [|done]).
    + intros uri0 all0 [= <-] Hp0. congruence.
    + eauto.
  - done.
  - done.
Qed.

Lemma step_Shape args c tid c' :
  Inv c → Shape args c → step c tid = Some c' → Shape args c'.
Proof.
  destruct tid; simpl; eauto using step_main_Shape, step_feed_Shape, step_article_Shape.
Qed.

Lemma run_Shape exe args input schedule :
  Shape args (run (init exe args input) schedule).
Proof.
  apply (run_invariant (λ c, Inv c ∧ Shape args c)).
  - intros c tid c' [? ?] Hs. split; [by eapply step_Inv|by eapply step_Shape].
  - split; [apply Inv_init|apply Shape_init].
Qed.

End ShapeFacts.

(** ** What the index counts *)

Section CountFacts.
Context `{Externals}.
Implicit Types (c : Config) (t : ArticleThread) (ft : FeedThread).

Lemma Counted_init exe args input : Counted (init exe args input).
Proof. intros token u. done. Qed.

Lemma Counted_ext c c' :
  Counted c → index c' = index c → articlethreads c' = articlethreads c →
  Counted c'.
Proof. intros HC Hi Ha token u. rewrite Hi, Ha. apply HC. Qed.

Lemma Counted_goto c c' i t t' :
  Counted c → articlethreads c !! i = Some t →
  index c' = index c → articlethreads c' = <[i:=t']> (articlethreads c) →
  (∀ token u, contribution token u t' = contribution token u t) →
  Counted c'.
Proof.
  intros HC Ht Hi Ha Hsame token u. rewrite Hi, Ha, HC. f_equal.
  symmetry. by apply total_insert_same with t.
Qed.

Lemma step_Counted c tid c' :
  Inv c → Counted c → step c tid = Some c' → Counted c'.
Proof.
  intros HI HC Hs. destruct tid as [|i|i]; simpl in Hs.
  - unfold step_main in Hs.
    destruct (mainpc c) as [exe args|uri|[|feed rest]| | |status];
      repeat case_match; simplify_option_eq; by eapply Counted_ext.
  - unfold step_feed in Hs.
    destruct (feedthreads c !! i) as [ft|] eqn:Ht; simplify_eq/=.
    destruct (f_pc ft) as [| |articles|[|article rest]|article serverurl rest|];
      repeat case_match; simplify_option_eq; try (by eapply Counted_ext).
    intros token u. simpl. rewrite total_snoc, HC.
    match goal with
    | |- context [contribution token u ?x] => change (contribution token u x) with 0
    end.
    by rewrite Nat.add_0_r.
  - unfold step_article in Hs.
    destruct (articlethreads c !! i) as [t|] eqn:Ht; simplify_eq/=.
    pose proof (Forall_lookup_1 _ _ _ _ (inv_articles c HI) Ht) as [_ Hpc].
    destruct (a_pc t) eqn:E; repeat case_match; simplify_option_eq;
      try (eapply Counted_goto; [done..|]; intros token u;
           unfold contribution; simpl; by rewrite ?E).
    + eapply Counted_goto; [done..|]. intros token u.
      unfold contribution. simpl. rewrite E. simpl.
      unfold article_count, word_count. case_decide as Eu; [|done].
      destruct Hpc as [_ Hn]. by rewrite <- Eu, Hn.
    + intros token u. simpl. rewrite count_add, HC.
      set (f := contribution token u).
      pose proof (total_insert f _ _ _ (set_a_pc ASignal t) Ht) as T.
      assert (f t = 0) as E0 by (unfold f, contribution; by rewrite E).
      assert (f (set_a_pc ASignal t) =
              if decide (url (a_article t) = u)
              then length (filter (λ x, x = token) tokens) else 0) as E1.
      { unfold f, contribution, article_count, word_count. simpl.
        case_decide as Eu; [|done]. by rewrite <- Eu, Hpc. }
      unfold RSSIndex.occurrences. case_decide; lia.
Qed.

Lemma run_Counted exe args input schedule :
  Counted (run (init exe args input) schedule).
Proof.
  apply (run_invariant (λ c, Inv c ∧ Counted c)).
  - intros c tid c' [? ?] Hs. split; [by eapply step_Inv|by eapply step_Counted].
  - split; [apply Inv_init|apply Counted_init].
Qed.

End CountFacts.

(** ** Sums over the tree of threads *)

Section SumFacts.
Context {A : Type}.
Implicit Types (f g : A → nat) (l : list A).





End SumFacts.



(** ** The crawl as a whole *)

Section CrawlAsAWhole.
Context `{Externals}.
Implicit Types (c : Config) (t : ArticleThread) (ft : FeedThread).

Lemma run_app c (s1 s2 : list Tid) : run c (s1 ++ s2) = run (run c s1) s2.
Proof. unfold run. apply foldl_app. Qed.

Lemma moves_measure c schedule :
  moves c schedule → length schedule + measure (run c schedule) ≤ measure c.
Proof.
  revert c. induction schedule as [|tid schedule IH]; intros c Hm; simpl in *; [lia|].
  destruct (step c tid) as [c1|] eqn:Hs; [|done].
  pose proof (step_measure _ _ _ Hs). specialize (IH c1 Hm). simpl. lia.
Qed.

(** X2.  The program takes a bounded number of steps: a schedule whose
    every turn is a step of a thread that can move is no longer than
    the bound computed from the arguments, the feed list and the numbers
    of articles of its feeds. *)
Theorem crawl_terminates exe args input schedule :
  moves (init exe args input) schedule →
  length schedule ≤ main_steps (MStart exe args).
Proof.
  intros Hm. apply moves_measure in Hm.
  change (measure (init exe args input))
    with (main_steps (MStart exe args) + 0 + 0) in Hm.
  lia.
Qed.

(** X3.  At every point of every run at most 8 feed threads are between
    the [wait] on [feedsAllowed] taken for them and their [signal]: at
    most 8 feeds are being downloaded and parsed at a time. *)
Theorem feeds_in_download_bounded exe args input schedule :
  total (λ ft, Nat.b2n (holds_feed ft))
        (feedthreads (run (init exe args input) schedule)) ≤ 8.
Proof.
  pose proof (run_Inv _ schedule (Inv_init exe args input)) as HI.
  pose proof (inv_feeds _ HI) as Hf. unfold kMaxfeed in Hf. lia.
Qed.

(** X4.  No semaphore ever holds more permits than it was created with:
    at every point of every run [feedsAllowed] is at most 8,
    [threadsAllowed] at most 64 and the semaphore of every server at
    most 12, so no [signal] is ever without its [wait]. *)
Theorem permits_within_capacity exe args input schedule h :
  let c := run (init exe args input) schedule in
  feedsAllowed c ≤ 8 ∧ threadsAllowed c ≤ 64 ∧
  default 0 (serverlocks c !! h) ≤ 12.
Proof.
  intros c. pose proof (run_Inv _ schedule (Inv_init exe args input)) as HI.
  fold c in HI. clearbody c.
  pose proof (inv_feeds c HI) as Hf. pose proof (inv_threads c HI) as Ht.
  pose proof (inv_hosts c HI h) as Hh.
  unfold kMaxfeed, kMaxthread, kMaxTperS in *.
  split_and!; [lia|lia|]. destruct (serverlocks c !! h); simpl; lia.
Qed.

(** X5.  The semaphore an article thread signals at its end is the one
    of the server of its own article, and it exists in [serverlocks] as
    long as the thread has not returned; the semaphore a feed thread
    waits on (line 124) is the one of the server of the article at hand,
    and it exists. *)
Theorem host_semaphore_exists exe args input schedule :
  let c := run (init exe args input) schedule in
  (∀ i t, articlethreads c !! i = Some t →
     a_up t = getURLServer (url (a_article t)) ∧
     (¬ ArticlePC_done (a_pc t) → is_Some (serverlocks c !! a_up t))) ∧
  (∀ i ft article serverurl rest,
     feedthreads c !! i = Some ft → f_pc ft = FHostWait article serverurl rest →
     serverurl = getURLServer (url article) ∧ is_Some (serverlocks c !! serverurl)).
Proof.
  intros c. pose proof (run_Inv _ schedule (Inv_init exe args input)) as HI.
  fold c in HI. clearbody c. split.
  - intros i t Ht.
    pose proof (Forall_lookup_1 _ _ _ _ (inv_articles c HI) Ht) as [Hup _].
    split; [done|]. intros Hd. eapply Inv_host_Some; [done..|].
    intros E. rewrite E in Hd. by apply Hd.
  - intros i ft article serverurl rest Ht E.
    pose proof (Forall_lookup_1 _ _ _ _ (inv_feedthreads c HI) Ht) as Hok.
    unfold feed_ok in Hok. rewrite E in Hok. tauto.
Qed.

Lemma step_exit_status c tid c' :
  (∀ status, mainpc c = MExited status → status = 0%Z) →
  step c tid = Some c' →
  ∀ status, mainpc c' = MExited status → status = 0%Z.
Proof.
  intros HP Hs. destruct tid as [|i|i]; simpl in Hs.
  - unfold step_main in Hs.
    destruct (mainpc c) as [exe args|uri|[|feed rest]| | |status0];
      repeat case_match; simplify_option_eq; intros status [=]; done.
  - unfold step_feed in Hs.
    destruct (feedthreads c !! i) as [ft|]; simplify_eq/=.
    destruct (f_pc ft) as [| |articles|[|article rest]|article serverurl rest|];
      repeat case_match; simplify_option_eq; done.
  - unfold step_article in Hs.
    destruct (articlethreads c !! i) as [t|]; simplify_eq/=.
    destruct (a_pc t); repeat case_match; simplify_option_eq; done.
Qed.

(** X6.  Whenever the process has exited, by [exit(0)] in [main], by
    [exit(0)] in [processAllFeeds] or by the [return] of [main], its
    status is 0. *)
Theorem exit_status_zero exe args input schedule status :
  mainpc (run (init exe args input) schedule) = MExited status → status = 0%Z.
Proof.
  revert status.
  apply (run_invariant (λ c, ∀ status, mainpc c = MExited status → status = 0%Z)).
  - intros c tid c'. apply step_exit_status.
  - done.
Qed.

(** When the crawl is over every thread has returned. *)
Lemma crawl_over_done args c :
  Shape args c → crawl_over (mainpc c) = true →
  Forall (λ ft, FeedPC_done (f_pc ft)) (feedthreads c) ∧
  Forall (λ t, ArticlePC_done (a_pc t)) (articlethreads c).
Proof.
  intros [S1 S2 S3 S4] Hover. unfold launch_ok in S1.
  assert (Forall (λ ft, FeedPC_done (f_pc ft)) (feedthreads c)) as Hf.
  { destruct (mainpc c); try done; by destruct S1. }
  split; [done|]. apply Forall_lookup. intros j t Ht.
  pose proof (Forall_lookup_1 _ _ _ _ S3 Ht) as Hlt. simpl in Hlt.
  destruct (lookup_lt_is_Some_2 _ _ Hlt) as [ft Hft].
  pose proof (Forall_lookup_1 _ _ _ _ Hf Hft) as Hd.
  exact (Forall_lookup_1 _ _ _ _ (S4 _ ft Hft Hd) Ht eq_refl).
Qed.

(** X7.  When the main thread is past the [join] of [processAllFeeds]
    every feed thread and every article thread has returned and every
    permit is back: [feedsAllowed] is 8, [threadsAllowed] is 64 and the
    semaphore of every server seen is 12. *)
Theorem crawl_over_all_returned exe args input schedule h :
  let c := run (init exe args input) schedule in
  crawl_over (mainpc c) = true →
  Forall (λ ft, FeedPC_done (f_pc ft)) (feedthreads c) ∧
  Forall (λ t, ArticlePC_done (a_pc t)) (articlethreads c) ∧
  feedsAllowed c = 8 ∧ threadsAllowed c = 64 ∧
  default 12 (serverlocks c !! h) = 12.
Proof.
  intros c Hover.
  pose proof (run_Inv _ schedule (Inv_init exe args input)) as HI.
  pose proof (run_Shape exe args input schedule) as HS.
  fold c in HI, HS. clearbody c.
  destruct (crawl_over_done args c HS Hover) as [Hf Ha].
  split; [done|]. split; [done|].
  pose proof (inv_feeds c HI) as If. pose proof (inv_threads c HI) as It.
  pose proof (inv_hosts c HI h) as Ih.
  rewrite (total_done_zero holds_thread) in It; [|..|done].
  2:{ intros t. unfold holds_thread. destruct (a_pc t); simpl; tauto. }
  rewrite (proj2 (total_zero (λ ft, Nat.b2n (holds_feed ft)) (feedthreads c))) in If.
  2:{ eapply Forall_impl; [exact Hf|]. intros ft. unfold holds_feed.
      by destruct (f_pc ft). }
  unfold kMaxfeed, kMaxthread, kMaxTperS in *.
  split_and!; [lia|lia|].
  destruct (serverlocks c !! h) as [n|]; [|done]. simpl.
  rewrite (total_done_zero (holds_host h)) in Ih; [lia|..|done].
  intros t. unfold holds_host. destruct (ArticlePC_done (a_pc t)); simpl.
  - rewrite andb_false_r. simpl. tauto.
  - tauto.
Qed.

Lemma step_after_crawl c tid c' :
  crawl_over (mainpc c) = true →
  Forall (λ ft, FeedPC_done (f_pc ft)) (feedthreads c) →
  Forall (λ t, ArticlePC_done (a_pc t)) (articlethreads c) →
  step c tid = Some c' →
  crawl_over (mainpc c') = true ∧ index c' = index c ∧
  feedthreads c' = feedthreads c ∧ articlethreads c' = articlethreads c ∧
  feedsAllowed c' = feedsAllowed c ∧ threadsAllowed c' = threadsAllowed c ∧
  serverlocks c' = serverlocks c.
Proof.
  intros Hover Hf Ha Hs. destruct tid as [|i|i]; simpl in Hs.
  - unfold step_main in Hs.
    destruct (mainpc c) as [exe args|uri|[|feed rest]| | |status]; try done.
    destruct (queryIndex (index c) (cin c)) as [o [rest|]]; by simplify_eq/=.
  - unfold step_feed in Hs.
    destruct (feedthreads c !! i) as [ft|] eqn:Ht; simplify_eq/=.
    pose proof (Forall_lookup_1 _ _ _ _ Hf Ht) as Hd. simpl in Hd.
    by destruct (f_pc ft).
  - unfold step_article in Hs.
    destruct (articlethreads c !! i) as [t|] eqn:Ht; simplify_eq/=.
    pose proof (Forall_lookup_1 _ _ _ _ Ha Ht) as Hd. simpl in Hd.
    by destruct (a_pc t).
Qed.

(** X8.  Once the main thread is past the [join] of [processAllFeeds]
    nothing writes to the index any more: whatever the rest of the
    schedule, the main thread stays past the [join], and the index, the
    threads and all the semaphores ([feedsAllowed], [threadsAllowed] and
    those of [serverlocks]) stay as they are, so the query loop reads an
    index no thread is changing. *)
Theorem index_frozen_after_crawl exe args input schedule schedule' :
  let c := run (init exe args input) schedule in
  crawl_over (mainpc c) = true →
  crawl_over (mainpc (run c schedule')) = true ∧
  index (run c schedule') = index c ∧
  feedthreads (run c schedule') = feedthreads c ∧
  articlethreads (run c schedule') = articlethreads c ∧
  feedsAllowed (run c schedule') = feedsAllowed c ∧
  threadsAllowed (run c schedule') = threadsAllowed c ∧
  serverlocks (run c schedule') = serverlocks c.
Proof.
  intros c Hover.
  pose proof (run_Shape exe args input schedule) as HS.
  fold c in HS. clearbody c.
  destruct (crawl_over_done args c HS Hover) as [Hf Ha].
  apply (run_invariant (λ c', crawl_over (mainpc c') = true ∧ index c' = index c ∧
           feedthreads c' = feedthreads c ∧ articlethreads c' = articlethreads c ∧
           feedsAllowed c' = feedsAllowed c ∧ threadsAllowed c' = threadsAllowed c ∧
           serverlocks c' = serverlocks c)); [|done].
  intros c1 tid c2 (Ho & Hi & Hft & Hat & Hfa & Hta & Hl) Hs.
  destruct (step_after_crawl c1 tid c2) as (? & ? & ? & ? & ? & ? & ?);
    [done|by rewrite Hft|by rewrite Hat|done|].
  split_and!; congruence.
Qed.

(** X9.  At every point of every run, whatever the interleaving, the
    count the index holds under a token and a URL is the sum, over the
    article threads for that URL that are past their [index.add], of
    the occurrences of the token in the document: no update is lost and
    none is made twice; a thread whose document could not be fetched
    counts for nothing. *)
Theorem index_counts_what_was_added exe args input schedule token u :
  let c := run (init exe args input) schedule in
  RSSIndex.count (index c) token u
  = Z.of_nat (total (contribution token u) (articlethreads c)).
Proof. apply run_Counted. Qed.

Lemma crawl_over_fanout args c uri all :
  Shape args c → crawl_over (mainpc c) = true →
  args = [uri] → feedListParse uri = Some all →
  f_feed <$> feedthreads c = all ∧
  ∀ i ft, feedthreads c !! i = Some ft →
    a_article <$> children i (articlethreads c)
    = default [] (feedParse (f_feed ft).1).
Proof.
  intros HS Hover -> Hp.
  destruct (crawl_over_done _ c HS Hover) as [Hf _].
  destruct HS as [S1 S2 S3 S4]. unfold launch_ok in S1. split.
  - destruct (mainpc c); try done.
    + destruct S1 as [(uri0 & all0 & [= <-] & Hp0 & Hall) _]. congruence.
    + destruct S1 as [(uri0 & all0 & [= <-] & Hp0 & Hall) _]. congruence.
    + destruct S1 as [Hall _]. by apply (Hall uri).
  - intros i ft Hft. pose proof (S2 i ft Hft) as Hfan. unfold fanout_ok in Hfan.
    pose proof (Forall_lookup_1 _ _ _ _ Hf Hft) as Hd. simpl in Hd.
    destruct (f_pc ft); try done. simpl in Hfan. by rewrite app_nil_r in Hfan.
Qed.


(** X11.  When the main thread is past the [join] of [processAllFeeds]
    there is one feed thread for each feed of the list, in the order of
    the list, and the article threads a feed thread created are one for
    each article of its feed, in the order of the feed; a feed that
    cannot be fetched has none. *)
Theorem one_thread_per_feed_and_article exe uri input schedule all :
  let c := run (init exe [uri] input) schedule in
  feedListParse uri = Some all →
  crawl_over (mainpc c) = true →
  f_feed <$> feedthreads c = all ∧
  ∀ i feed, all !! i = Some feed →
    a_article <$> children i (articlethreads c) = default [] (feedParse feed.1).
Proof.
  intros c Hp Hover.
  pose proof (run_Shape exe [uri] input schedule) as HS.
  fold c in HS. clearbody c.
  destruct (crawl_over_fanout _ c uri all HS Hover eq_refl Hp) as [Hall Hfan].
  split; [done|]. intros i feed Hi. rewrite <- Hall in Hi.
  rewrite list_lookup_fmap in Hi.
  destruct (feedthreads c !! i) as [ft|] eqn:Hft; simplify_eq/=.
  by apply Hfan.
Qed.

End CrawlAsAWhole.

(** ** The query loop at the end of the input *)

Section QueryLoopFacts.
Context `{Externals}.
Implicit Types (idx : RSSIndex.t) (c : Config).

Lemma queryIndex_rest idx input :
  trim "" = "" →
  ∃ rest, (queryIndex idx input).2 = Some rest ∧ rest `suffix_of` input.
Proof.
  intros Ht. induction input as [|line input IH]; simpl.
  - rewrite decide_True by done. by exists [].
  - case_decide.
    + exists input. split; [done|]. by apply suffix_cons_r.
    + destruct IH as (rest & Hr & Hs).
      destruct (queryIndex idx input) as [o e]. simpl in *.
      exists rest. split; [done|]. by apply suffix_cons_r.
Qed.

(** X12.  With a [trim] that leaves the empty string empty the query
    loop ends on every finite input, at a line that trims to the empty
    string or at the end of the input, and leaves unread a suffix of
    the input; the main thread then writes its last line and returns
    from [main] with status 0. *)
Theorem queryIndex_terminates idx input c :
  trim "" = "" →
  (∃ rest, (queryIndex idx input).2 = Some rest ∧ rest `suffix_of` input) ∧
  (mainpc c = MQuery →
   ∃ c', step c TMain = Some c' ∧ mainpc c' = MExited 0%Z ∧
         cin c' `suffix_of` cin c ∧
         last (output c') = Some (cout, "Exiting...." ++ endl)).
Proof.
  intros Ht. split; [by apply queryIndex_rest|].
  intros Hm. simpl. unfold step_main. rewrite Hm.
  destruct (queryIndex_rest (index c) (cin c) Ht) as (rest & Hr & Hs).
  destruct (queryIndex (index c) (cin c)) as [o e]. simpl in Hr. subst e.
  eexists. split; [done|]. simpl. split_and!; [done|done|].
  rewrite app_comm_cons, !app_assoc. apply last_snoc.
Qed.

(** X13.  The end of the input: when no line of the input trims to the
    empty string the loop answers every line, prompts once more and
    reads past the last line, where [getline] leaves the response empty;
    it then ends when [trim] leaves the empty string empty and never
    ends otherwise. *)
Theorem queryIndex_end_of_input idx input :
  Forall (λ l, trim l ≠ "") input →
  queryIndex idx input =
    ((concat (answered idx <$> input) ++ [prompt])%list,
     if decide (trim "" = "") then Some [] else None).
Proof. apply queryIndex_to_end. Qed.

Lemma length_concat_entries (matches : list (Article * Z)) k :
  length (concat (imap (λ i m, entry (k + i) m) matches)) = 2 * length matches.
Proof.
  revert k. induction matches as [|m matches IH]; intros k; [done|].
  rewrite imap_cons. cbn [concat]. rewrite length_app.
  rewrite (imap_ext _ (λ i m, entry (S k + i) m)).
  - rewrite IH. simpl. lia.
  - intros i x _. simpl. f_equal. lia.
Qed.

(** X14.  The size of a report: one statement when there is no match,
    and otherwise the summary, the heading and two lines for each of
    the first matches, 15 of them at most, so never more than 32. *)
Theorem report_length response (matches : list (Article * Z)) :
  length (report response matches) =
    match matches with
    | [] => 1
    | _ => 2 + 2 * (length matches `min` 15)
    end
  ∧ length (report response matches) ≤ 32.
Proof.
  assert (length (report response matches) =
          match matches with [] => 1 | _ => 2 + 2 * (length matches `min` 15) end)
    as Hlen.
  { destruct matches as [|m matches]; [done|].
    unfold report. cbn [length]. rewrite showMatches_take by (unfold kMaxMatchesToShow; lia).
    rewrite (length_concat_entries _ 1), length_take.
    unfold kMaxMatchesToShow. rewrite Nat.sub_0_r. cbn [length]. lia. }
  split; [done|]. rewrite Hlen. destruct matches; lia.
Qed.

End QueryLoopFacts.

(** ** What only grows *)

Section GrowthFacts.
Context `{Externals}.
Implicit Types (c : Config).

Lemma step_grows c tid c' h token u :
  step c tid = Some c' →
  (is_Some (serverlocks c !! h) → is_Some (serverlocks c' !! h)) ∧
  (RSSIndex.count (index c) token u ≤ RSSIndex.count (index c') token u)%Z ∧
  output c `prefix_of` output c'.
Proof.
  intros Hs. destruct tid as [|i|i]; simpl in Hs.
  - unfold step_main in Hs.
    destruct (mainpc c) as [exe args|uri|[|feed rest]| | |status];
      repeat case_match; simplify_option_eq;
      (split_and!; [done|done|]; try done; by apply prefix_app_r).
  - unfold step_feed in Hs.
    destruct (feedthreads c !! i) as [ft|]; simplify_eq/=.
    destruct (f_pc ft) as [| |articles|[|article rest]|article serverurl rest|];
      repeat case_match; simplify_option_eq;
      (split_and!; [..|done|]; try done; try (by apply prefix_app_r);
       try apply is_Some_insert_mono).
  - unfold step_article in Hs.
    destruct (articlethreads c !! i) as [t|]; simplify_eq/=.
    destruct (a_pc t); repeat case_match; simplify_option_eq;
      (split_and!; try done; try (by apply prefix_app_r);
       try apply is_Some_insert_mono).
    rewrite count_add. unfold RSSIndex.occurrences. case_decide; lia.
Qed.

(** X15.  Nothing is ever taken back: along every schedule, from every
    state, a server that has a semaphore in [serverlocks] keeps one,
    no count of the index decreases, and what was written stays
    written. *)
Theorem state_only_grows c schedule h token u :
  (is_Some (serverlocks c !! h) → is_Some (serverlocks (run c schedule) !! h)) ∧
  (RSSIndex.count (index c) token u
   ≤ RSSIndex.count (index (run c schedule)) token u)%Z ∧
  output c `prefix_of` output (run c schedule).
Proof.
  apply (run_invariant (λ c',
    (is_Some (serverlocks c !! h) → is_Some (serverlocks c' !! h)) ∧
    (RSSIndex.count (index c) token u ≤ RSSIndex.count (index c') token u)%Z ∧
    output c `prefix_of` output c')); [|done].
  intros c1 tid c2 (Hl & Hc & Ho) Hs.
  destruct (step_grows c1 tid c2 h token u Hs) as (Hl' & Hc' & Ho').
  split_and!; [tauto|lia|by etrans].
Qed.

End GrowthFacts.

(** ** No deadlock *)

Section NoDeadlock.
Context `{Externals}.
Implicit Types (c : Config).

(** The main thread is inside a query loop that never ends only when
    [trim] makes a non-empty string of the empty one. *)
Lemma step_query_for_ever c tid c' :
  (mainpc c = MQueryForever → trim "" ≠ "") →
  step c tid = Some c' →
  mainpc c' = MQueryForever → trim "" ≠ "".
Proof.
  intros HP Hs Hm. destruct tid as [|i|i]; simpl in Hs.
  - unfold step_main in Hs.
    destruct (mainpc c) as [exe args|uri|[|feed rest]| | |status] eqn:E;
      try (repeat case_match; simplify_option_eq; done).
    intros Ht. destruct (queryIndex_rest (index c) (cin c) Ht) as (rest & Hr & _).
    destruct (queryIndex (index c) (cin c)) as [o e]. simpl in Hr. subst e.
    by simplify_eq/=.
  - apply HP. unfold step_feed in Hs.
    destruct (feedthreads c !! i) as [ft|]; simplify_eq/=.
    destruct (f_pc ft) as [| |articles|[|article rest]|article serverurl rest|];
      repeat case_match; simplify_option_eq; done.
  - apply HP. unfold step_article in Hs.
    destruct (articlethreads c !! i) as [t|]; simplify_eq/=.
    destruct (a_pc t); repeat case_match; simplify_option_eq; done.
Qed.

(** X1.  With every [parse] a step that returns (a fetch that hangs is
    not modelled), the crawl has no deadlock.  In every state of every
    run in which the main thread has not exited and is not inside a
    query loop that never ends, some thread can move.  The main thread
    is inside such a loop only when [trim] makes a non-empty string of
    the empty one.  Every state can be continued until the main thread
    has exited with status 0 or is inside such a loop; when [trim]
    leaves the empty string empty every state can be continued until
    the process has exited with status 0. *)
Theorem crawl_no_deadlock exe args input schedule :
  let c := run (init exe args input) schedule in
  ((∀ status, mainpc c ≠ MExited status) → mainpc c ≠ MQueryForever →
   ∃ tid, is_Some (step c tid)) ∧
  (mainpc c = MQueryForever → trim "" ≠ "") ∧
  (∃ schedule',
     mainpc (run c schedule') = MExited 0%Z ∨
     mainpc (run c schedule') = MQueryForever ∧ trim "" ≠ "") ∧
  (trim "" = "" → ∃ schedule', mainpc (run c schedule') = MExited 0%Z).
Proof.
  intros c. pose proof (run_Inv _ schedule (Inv_init exe args input)) as HI.
  assert (∀ s c', c' = run (init exe args input) s →
            (mainpc c' = MQueryForever → trim "" ≠ "") ∧
            (∀ status, mainpc c' = MExited status → status = 0%Z)) as Hend.
  { intros s c' ->. split.
    - apply (run_invariant (λ c0, mainpc c0 = MQueryForever → trim "" ≠ ""));
        [|done]. intros c0 tid c1. apply step_query_for_ever.
    - apply (run_invariant
               (λ c0, ∀ status, mainpc c0 = MExited status → status = 0%Z));
        [|done]. intros c0 tid c1. apply step_exit_status. }
  assert (∃ schedule',
            mainpc (run c schedule') = MExited 0%Z ∨
            mainpc (run c schedule') = MQueryForever ∧ trim "" ≠ "") as Hcont.
  { destruct (run_completes c HI) as [schedule' Hfin].
    exists schedule'.
    destruct (Hend (schedule ++ schedule')%list (run c schedule')) as [Hq He].
    { unfold c. by rewrite run_app. }
    destruct (mainpc (run c schedule')) as [| | | | |status]; try done.
    - right. split; [done|]. by apply Hq.
    - left. f_equal. by apply He. }
  split_and!.
  - intros He Hq. apply progress; [done|].
    destruct (mainpc c) as [| | | | |status]; try done. by destruct (He status).
  - by apply (Hend schedule c).
  - exact Hcont.
  - intros Ht. destruct Hcont as [schedule' [He|[_ Hne]]]; [|done].
    by exists schedule'.
Qed.

End NoDeadlock.

(** ** The further properties at concrete inputs *)

Lemma crawl_no_deadlock_witness :
  let c := run (H := demo) (init "news" ["feeds.xml"] demo_input)
             (take 5 demo_schedule) in
  (∀ status, mainpc c ≠ MExited status) ∧ mainpc c ≠ MQueryForever ∧
  (∃ tid, is_Some (step (H := demo) c tid)) ∧
  trim (Externals := demo) "" = "" ∧
  ∃ schedule', mainpc (run (H := demo) c schedule') = MExited 0%Z.
Proof.
  intros c.
  assert (mainpc c = MSpawn [("feedB", "Feed B"); ("feedC", "Feed C")]) as Hm
    by (vm_compute; reflexivity).
  assert (∀ status, mainpc c ≠ MExited status) as He
    by (intros status; rewrite Hm; discriminate).
  assert (mainpc c ≠ MQueryForever) as Hq by (rewrite Hm; discriminate).
  assert (trim (Externals := demo) "" = "") as Ht by reflexivity.
  destruct (crawl_no_deadlock (H := demo) "news" ["feeds.xml"] demo_input
              (take 5 demo_schedule)) as (W1 & _ & _ & W4).
  split; [exact He|]. split; [exact Hq|]. split; [exact (W1 He Hq)|].
  split; [exact Ht|exact (W4 Ht)].
Defined.

Lemma crawl_terminates_witness :
  moves (H := demo) (init "news" ["feeds.xml"] demo_input) demo_schedule ∧
  length demo_schedule ≤ main_steps (H := demo) (MStart "news" ["feeds.xml"]).
Proof.
  assert (moves (H := demo) (init "news" ["feeds.xml"] demo_input) demo_schedule)
    as Hm by (vm_compute; exact I).
  split; [exact Hm|].
  exact (crawl_terminates (H := demo) "news" ["feeds.xml"] demo_input
           demo_schedule Hm).
Defined.

Lemma host_semaphore_exists_witness :
  let c := run (H := demo) (init "news" ["feeds.xml"] demo_input)
             (take 27 demo_schedule) in
  let t := {| a_article := demo_x; a_up := "b.com"; a_parent := 1;
              a_title := ""; a_url := ""; a_doc := ""; a_pc := AWait |} in
  articlethreads c !! 2 = Some t ∧ is_Some (serverlocks c !! "b.com").
Proof.
  intros c t.
  assert (articlethreads c !! 2 = Some t) as Ht by (vm_compute; reflexivity).
  split; [exact Ht|].
  destruct (host_semaphore_exists (H := demo) "news" ["feeds.xml"] demo_input
              (take 27 demo_schedule)) as [W _].
  destruct (W 2 t Ht) as [_ W'].
  apply W'. simpl. intros [].
Defined.

Lemma exit_status_zero_witness :
  mainpc (run (H := demo) (init "news" ["feeds.xml"] demo_input) demo_schedule)
    = MExited 0%Z ∧ (0 = 0)%Z.
Proof.
  assert (mainpc (run (H := demo) (init "news" ["feeds.xml"] demo_input) demo_schedule)
          = MExited 0%Z) as Hm by (vm_compute; reflexivity).
  split; [exact Hm|].
  exact (exit_status_zero (H := demo) "news" ["feeds.xml"] demo_input
           demo_schedule 0%Z Hm).
Defined.

Lemma crawl_over_all_returned_witness :
  let c := run (H := demo) (init "news" ["feeds.xml"] demo_input)
             (take 37 demo_schedule) in
  crawl_over (mainpc c) = true ∧
  feedsAllowed c = 8 ∧ threadsAllowed c = 64 ∧
  default 12 (serverlocks c !! "b.com") = 12.
Proof.
  intros c.
  assert (crawl_over (mainpc c) = true) as Ho by (vm_compute; reflexivity).
  split; [exact Ho|].
  destruct (crawl_over_all_returned (H := demo) "news" ["feeds.xml"] demo_input
              (take 37 demo_schedule) "b.com" Ho) as (_ & _ & W).
  exact W.
Defined.

Lemma index_frozen_after_crawl_witness :
  let c := run (H := demo) (init "news" ["feeds.xml"] demo_input)
             (take 37 demo_schedule) in
  let c' := run (H := demo) c [TArticle 1; TFeed 0; TMain] in
  crawl_over (mainpc c) = true ∧
  mainpc c ≠ mainpc c' ∧
  crawl_over (mainpc c') = true ∧
  index c' = index c ∧
  feedsAllowed c' = feedsAllowed c ∧ feedsAllowed c = 8%nat ∧
  threadsAllowed c' = threadsAllowed c ∧ threadsAllowed c = 64%nat ∧
  serverlocks c' = serverlocks c.
Proof.
  intros c c'.
  assert (crawl_over (mainpc c) = true) as Ho by (vm_compute; reflexivity).
  assert (mainpc c ≠ mainpc c') as Hmv by (vm_compute; discriminate).
  assert (feedsAllowed c = 8%nat) as Hf by (vm_compute; reflexivity).
  assert (threadsAllowed c = 64%nat) as Ht by (vm_compute; reflexivity).
  destruct (index_frozen_after_crawl (H := demo) "news" ["feeds.xml"] demo_input
              (take 37 demo_schedule) [TArticle 1; TFeed 0; TMain] Ho)
    as (W1 & W2 & _ & _ & W5 & W6 & W7).
  split; [exact Ho|]. split; [exact Hmv|]. split; [exact W1|].
  split; [exact W2|]. split; [exact W5|]. split; [exact Hf|].
  split; [exact W6|]. split; [exact Ht|exact W7].
Defined.


Lemma one_thread_per_feed_and_article_witness :
  let c := run (H := demo) (init "news" ["feeds.xml"] demo_input)
             (take 37 demo_schedule) in
  let all := [("feedA", "Feed A"); ("feedB", "Feed B"); ("feedC", "Feed C")] in
  feedListParse (Externals := demo) "feeds.xml" = Some all ∧
  crawl_over (mainpc c) = true ∧
  a_article <$> children 1 (articlethreads c) = [demo_b; demo_x].
Proof.
  intros c all.
  assert (feedListParse (Externals := demo) "feeds.xml" = Some all) as Hp
    by reflexivity.
  assert (crawl_over (mainpc c) = true) as Ho by (vm_compute; reflexivity).
  split; [exact Hp|]. split; [exact Ho|].
  destruct (one_thread_per_feed_and_article (H := demo) "news" "feeds.xml"
              demo_input (take 37 demo_schedule) all Hp Ho) as [_ W].
  exact (W 1 ("feedB", "Feed B") eq_refl).
Defined.

Lemma queryIndex_terminates_witness :
  trim (Externals := demo) "" = "" ∧
  ∃ rest, (queryIndex (H := demo) demo_index demo_input).2 = Some rest ∧
          rest `suffix_of` demo_input.
Proof.
  assert (trim (Externals := demo) "" = "") as Ht by reflexivity.
  split; [exact Ht|].
  destruct (queryIndex_terminates (H := demo) demo_index demo_input
              (init "news" ["feeds.xml"] demo_input) Ht) as [W _].
  exact W.
Defined.

Lemma queryIndex_end_of_input_witness :
  Forall (λ l, trim (Externals := demo) l ≠ "") ["go"; " rust"] ∧
  (queryIndex (H := demo) demo_index ["go"; " rust"]).2 = Some [].
Proof.
  assert (Forall (λ l, trim (Externals := demo) l ≠ "") ["go"; " rust"]) as Hb
    by (repeat constructor; vm_compute; discriminate).
  split; [exact Hb|].
  rewrite (queryIndex_end_of_input (H := demo) demo_index ["go"; " rust"] Hb).
  reflexivity.
Defined.
